(** * Kraken: metadata store and torrent scheduler events

    A shallow embedding of two files of the Kraken peer-to-peer agent:

    - [client/store/local_metatdata.go], the [startedAt] metadata file
      (module [Store]);
    - [lib/torrent/scheduler/events.go], the events of the torrent scheduler
      and their [Apply] methods (module [Sched]).

    Go's [error] results are values of a sum or option type ([None] is [nil]);
    state that Go mutates in place is passed explicitly; calls whose only
    purpose is logging are left out. *)

From Stdlib Require Import ZArith Lia.
From Stdlib.Strings Require Import Byte.
From Stdlib Require HexadecimalString.
From stdpp Require Import gmap strings list fin_maps pretty.

(* ===================================================================== *)
(** * client/store/local_metatdata.go                                     *)
(* ===================================================================== *)

Module Store.

(** ** The file system the code runs against

    A file system maps a path to the bytes of the regular file stored there.
    An open file ([*os.File]) is the path together with the handle's current
    offset; the offset is what [Read] and [Write] advance and what [Truncate]
    leaves alone.  The only failure the in-memory file system produces by
    itself is a missing file; the other error returns of the Go code are kept
    in the embedding but are never taken. *)

#[global] Instance byte_eq_dec : EqDecision byte := Byte.byte_eq_dec.

Inductive os_error :=
  | ErrNotExist
  | ErrOther (msg : string).

#[global] Instance os_error_eq_dec : EqDecision os_error.
Proof. solve_decision. Defined.

Record FileInfo := { fi_Size : nat }.

Record File := { f_name : string; f_offset : nat }.

Definition os_Stat (fs : gmap string (list byte)) (fp : string)
  : FileInfo + os_error :=
  match fs !! fp with
  | Some data => inl {| fi_Size := length data |}
  | None => inr ErrNotExist
  end.

(** [os.IsNotExist(err)]; [err] is [nil] when the call succeeded. *)
Definition os_IsNotExist (err : option os_error) : bool :=
  match err with
  | Some ErrNotExist => true
  | _ => false
  end.

(** [ioutil.WriteFile]: creates the file or truncates it, then writes. *)
Definition ioutil_WriteFile (fs : gmap string (list byte)) (fp : string)
    (content : list byte) : gmap string (list byte) * option os_error :=
  (<[fp := content]> fs, None).

Definition ioutil_ReadFile (fs : gmap string (list byte)) (fp : string)
  : list byte + os_error :=
  match fs !! fp with
  | Some data => inl data
  | None => inr ErrNotExist
  end.

(** [os.OpenFile(fp, os.O_RDWR, _)]: no [O_CREATE], no [O_APPEND]; the handle
    starts at offset 0. *)
Definition os_OpenFile (fs : gmap string (list byte)) (fp : string)
  : File + os_error :=
  match fs !! fp with
  | Some _ => inl {| f_name := fp; f_offset := 0 |}
  | None => inr ErrNotExist
  end.

Definition File_Stat (fs : gmap string (list byte)) (f : File)
  : FileInfo + os_error :=
  os_Stat fs (f_name f).

(** [f.Read(buf)] with [len(buf) = n]: copies the bytes from the offset on
    into the zeroed buffer and advances the offset by the number read. *)
Definition File_Read (fs : gmap string (list byte)) (f : File) (n : nat)
  : list byte * File :=
  let data := default [] (fs !! f_name f) in
  let got := take n (drop (f_offset f) data) in
  (got ++ replicate (n - length got) Byte.x00,
   {| f_name := f_name f; f_offset := f_offset f + length got |}).

(** [ftruncate]: the file is cut or extended with zero bytes to [size]; the
    offset of the handle does not move. *)
Definition truncate_bytes (size : nat) (data : list byte) : list byte :=
  take size data ++ replicate (size - length data) Byte.x00.

Definition File_Truncate (fs : gmap string (list byte)) (f : File) (size : nat)
  : gmap string (list byte) * option os_error :=
  match fs !! f_name f with
  | Some data => (<[f_name f := truncate_bytes size data]> fs, None)
  | None => (fs, Some ErrNotExist)
  end.

(** [write] at the handle's offset: a gap between the end of the file and the
    offset reads as zero bytes, bytes after the written range stay.  A write
    of no bytes changes nothing, wherever the offset is. *)
Definition write_at (off : nat) (content data : list byte) : list byte :=
  match content with
  | [] => data
  | _ :: _ =>
      take off data ++ replicate (off - length data) Byte.x00
        ++ content ++ drop (off + length content) data
  end.

Definition File_Write (fs : gmap string (list byte)) (f : File)
    (content : list byte) : gmap string (list byte) * File * option os_error :=
  match fs !! f_name f with
  | Some data =>
      (<[f_name f := write_at (f_offset f) content data]> fs,
       {| f_name := f_name f; f_offset := f_offset f + length content |},
       None)
  | None => (fs, f, Some ErrNotExist)
  end.

(** ** compareMetadata *)

(** The loop [for i := 0; i < n; i++] of [compareMetadata], once the lengths
    are known to agree. *)
Fixpoint compare_from (d1 d2 : list byte) : bool :=
  match d1, d2 with
  | b1 :: r1, b2 :: r2 => if decide (b1 = b2) then compare_from r1 r2 else false
  | _, _ => true
  end.

Definition compareMetadata (d1 d2 : list byte) : bool :=
  if decide (length d1 ≠ length d2) then false else compare_from d1 d2.

(** ** startedAt *)

Definition startedAt_path (filepath : string) : string :=
  filepath +:+ "_startedat".

(** [startedAt.set]: the result is the file system afterwards and the pair
    [(bool, error)] the method returns. *)
Definition startedAt_set (fs : gmap string (list byte)) (filepath : string)
    (content : list byte) : gmap string (list byte) * (bool * option os_error) :=
  let fp := startedAt_path filepath in
  let err := match os_Stat fs fp with inl _ => None | inr e => Some e end in
  if bool_decide (err ≠ None) && negb (os_IsNotExist err) then (fs, (false, err))
  else if os_IsNotExist err then
    match ioutil_WriteFile fs fp content with
    | (fs', Some e) => (fs', (false, Some e))
    | (fs', None) => (fs', (true, None))
    end
  else
    match os_OpenFile fs fp with
    | inr e => (fs, (false, Some e))
    | inl f =>
        match File_Stat fs f with
        | inr e => (fs, (false, Some e))
        | inl info =>
            let '(data, f1) := File_Read fs f (fi_Size info) in
            if compareMetadata data content then (fs, (false, None))
            else
              let '(fs1, terr) :=
                if decide (length data ≠ length content)
                then File_Truncate fs f1 (length content)
                else (fs, None) in
              match terr with
              | Some e => (fs1, (false, Some e))
              | None =>
                  match File_Write fs1 f1 content with
                  | (fs2, _, Some e) => (fs2, (false, Some e))
                  | (fs2, _, None) => (fs2, (true, None))
                  end
              end
        end
    end.

Definition startedAt_get (fs : gmap string (list byte)) (filepath : string)
  : list byte + os_error :=
  let fp := startedAt_path filepath in
  match os_Stat fs fp with
  | inr e => inr e
  | inl _ => ioutil_ReadFile fs fp
  end.

(** ** Properties of [startedAt] *)

Lemma compare_from_eq (d1 d2 : list byte) :
  length d1 = length d2 → compare_from d1 d2 = true ↔ d1 = d2.
Proof.
  revert d2; induction d1 as [|b1 r1 IH]; intros [|b2 r2] Hlen; simpl in *;
    try discriminate; [done|].
  destruct (decide (b1 = b2)) as [->|Hne].
  - rewrite IH by lia. split; congruence.
  - split; [discriminate | congruence].
Qed.

Lemma compareMetadata_eq (d1 d2 : list byte) :
  compareMetadata d1 d2 = true ↔ d1 = d2.
Proof.
  unfold compareMetadata. destruct (decide (length d1 ≠ length d2)) as [Hne|Heq].
  - split; [discriminate | intros ->; done].
  - apply compare_from_eq. destruct (decide (length d1 = length d2)); done.
Qed.

Lemma File_Read_whole (fs : gmap string (list byte)) (fp : string)
    (old : list byte) :
  fs !! fp = Some old →
  File_Read fs {| f_name := fp; f_offset := 0 |} (length old)
  = (old, {| f_name := fp; f_offset := length old |}).
Proof.
  intros Hfp. unfold File_Read; simpl. rewrite Hfp; simpl.
  rewrite firstn_all, Nat.sub_diag; simpl. by rewrite app_nil_r.
Qed.

Lemma write_at_length (off : nat) (content data : list byte) :
  content ≠ [] →
  off + length content ≤ length (write_at off content data).
Proof.
  intros Hcontent. unfold write_at. destruct content as [|b content]; [done|].
  rewrite !length_app, length_take, length_replicate. lia.
Qed.

(** What the file holds once [set] has returned [(true, nil)] for a file that
    was already there. *)
Definition overwritten (old content : list byte) : list byte :=
  write_at (length old) content
    (if decide (length old ≠ length content)
     then truncate_bytes (length content) old else old).

(** The first [set] on a path creates the file with exactly [content]. *)
Lemma startedAt_set_get_fresh (fs : gmap string (list byte)) (filepath : string)
    (content : list byte) :
  fs !! startedAt_path filepath = None →
  (startedAt_set fs filepath content).2 = (true, None)
  ∧ startedAt_get (startedAt_set fs filepath content).1 filepath = inl content.
Proof.
  intros Hnone. unfold startedAt_set, startedAt_get, os_Stat, ioutil_ReadFile.
  rewrite Hnone; simpl. by rewrite lookup_insert_eq.
Qed.

(** On a file that exists with other content, [set] reports success and
    leaves [overwritten old content] behind: the write lands at the offset
    the preceding [Read] moved the handle to. *)
Lemma startedAt_set_existing (fs : gmap string (list byte))
    (filepath : string) (old content : list byte) :
  fs !! startedAt_path filepath = Some old →
  old ≠ content →
  startedAt_set fs filepath content
  = (<[startedAt_path filepath := overwritten old content]> fs, (true, None)).
Proof.
  intros Hold Hne.
  unfold startedAt_set, os_Stat, os_OpenFile, File_Stat, os_Stat.
  rewrite Hold. cbn -[File_Read File_Truncate File_Write compareMetadata].
  rewrite Hold. cbn -[File_Read File_Truncate File_Write compareMetadata].
  rewrite (File_Read_whole _ _ _ Hold).
  destruct (compareMetadata old content) eqn:Hcmp.
  { apply compareMetadata_eq in Hcmp. done. }
  unfold overwritten, File_Truncate, File_Write.
  destruct (decide (length old ≠ length content)); cbn [f_name f_offset].
  - rewrite Hold, lookup_insert_eq. by rewrite insert_insert_eq.
  - by rewrite Hold.
Qed.

Lemma startedAt_set_get_existing (fs : gmap string (list byte))
    (filepath : string) (old content : list byte) :
  fs !! startedAt_path filepath = Some old →
  old ≠ content →
  (startedAt_set fs filepath content).2 = (true, None)
  ∧ startedAt_get (startedAt_set fs filepath content).1 filepath
    = inl (overwritten old content).
Proof.
  intros Hold Hne. rewrite (startedAt_set_existing _ _ _ _ Hold Hne).
  split; [done|]. unfold startedAt_get, os_Stat, ioutil_ReadFile; simpl.
  by rewrite lookup_insert_eq.
Qed.

(** So a successful [set] of some bytes on a non-empty existing file never
    leaves [content] in it. *)
Lemma startedAt_set_get_existing_differs (fs : gmap string (list byte))
    (filepath : string) (old content : list byte) :
  fs !! startedAt_path filepath = Some old →
  old ≠ [] → content ≠ [] → old ≠ content →
  (startedAt_set fs filepath content).2 = (true, None)
  ∧ startedAt_get (startedAt_set fs filepath content).1 filepath ≠ inl content.
Proof.
  intros Hold Hnonempty Hcontent Hne.
  destruct (startedAt_set_get_existing fs filepath old content Hold Hne)
    as [Hret Hget].
  split; [done|]. rewrite Hget. intros [= Heq].
  pose proof (write_at_length (length old) content
    (if decide (length old ≠ length content)
     then truncate_bytes (length content) old else old) Hcontent) as Hlen.
  fold (overwritten old content) in Hlen. rewrite Heq in Hlen.
  destruct old; [done | simpl in Hlen; lia].
Qed.

(** The file [f_startedat] holds "abc". *)
Definition fs_abc : gmap string (list byte) :=
  {[ "f_startedat" := [x61; x62; x63] ]}.

(** C10, evaluated where it fails: on a file that holds "abc",
    [set("f", "xy")] returns [(true, nil)], and the [get("f")] that follows
    returns the five bytes "ab\0xy", not "xy". *)
Lemma startedAt_set_get_abc_xy :
  (startedAt_set fs_abc "f" [x78; x79]).2 = (true, None)
  ∧ startedAt_get (startedAt_set fs_abc "f" [x78; x79]).1 "f"
    = inl [x61; x62; x00; x78; x79]
  ∧ startedAt_get (startedAt_set fs_abc "f" [x78; x79]).1 "f"
    ≠ inl [x78; x79].
Proof.
  assert (Hold : fs_abc !! startedAt_path "f" = Some [x61; x62; x63]).
  { unfold fs_abc. by rewrite lookup_singleton_eq. }
  destruct (startedAt_set_get_existing fs_abc "f" _ [x78; x79] Hold)
    as [Hret Hget]; [done|].
  split; [done|]. rewrite Hget. split; [reflexivity | discriminate].
Qed.

(** Setting no bytes on "abc": the file is truncated to nothing, the write
    writes nothing, and [get] returns the empty content. *)
Example startedAt_set_get_abc_nothing :
  (startedAt_set fs_abc "f" []).2 = (true, None)
  ∧ startedAt_get (startedAt_set fs_abc "f" []).1 "f" = inl [].
Proof. split; vm_compute; reflexivity. Qed.

(** Same length, other bytes: "abc" then [set("f", "xyz")] leaves "abcxyz". *)
Lemma startedAt_set_get_abc_xyz :
  (startedAt_set fs_abc "f" [x78; x79; x7a]).2 = (true, None)
  ∧ startedAt_get (startedAt_set fs_abc "f" [x78; x79; x7a]).1 "f"
    = inl [x61; x62; x63; x78; x79; x7a].
Proof.
  assert (Hold : fs_abc !! startedAt_path "f" = Some [x61; x62; x63]).
  { unfold fs_abc. by rewrite lookup_singleton_eq. }
  destruct (startedAt_set_get_existing fs_abc "f" _ [x78; x79; x7a] Hold)
    as [Hret Hget]; [done|].
  split; [done|]. rewrite Hget. reflexivity.
Qed.

(** ** The rest of the file: deletion and [pieceStatus] *)

(** [os.RemoveAll(fp)]: removes the file at [fp] and everything below it;
    a path that does not exist is no error. *)
Definition os_RemoveAll (fs : gmap string (list byte)) (fp : string)
  : gmap string (list byte) * option os_error :=
  (filter (λ kv, kv.1 ≠ fp ∧ String.prefix (fp +:+ "/") kv.1 = false) fs, None).

Definition startedAt_delete (fs : gmap string (list byte)) (filepath : string)
  : gmap string (list byte) * option os_error :=
  let fp := startedAt_path filepath in
  match os_RemoveAll fs fp with
  | (fs', Some e) => (fs', Some e)
  | (fs', None) => (fs', None)
  end.

Definition pieceClean : byte := x00.
Definition pieceDirty : byte := x01.
Definition pieceDone : byte := x02.
Definition pieceDontCare : byte := x03.

(** [index] and [numPieces] are Go [int]s: they may be negative. *)
Record pieceStatus := { index : Z; numPieces : Z }.

Definition getPieceStatus (index numPieces : Z) : pieceStatus :=
  {| index := index; numPieces := numPieces |}.

(** A call returns, or panics at run time. *)
Inductive outcome (A : Type) :=
  | Returns (a : A)
  | Panics (msg : string).
Arguments Returns {A} a.
Arguments Panics {A} msg.

(** [fmt]'s [%v] of a byte slice: the decimal values between brackets. *)
Definition fmt_bytes (content : list byte) : string :=
  "[" +:+ String.concat " " (map (λ b, pretty (Byte.to_N b)) content) +:+ "]".

(** [os.Open(fp)]: the handle starts at offset 0. *)
Definition os_Open (fs : gmap string (list byte)) (fp : string)
  : File + os_error :=
  os_OpenFile fs fp.

(** [f.ReadAt(buf, off)] with [len(buf) = n]: reads at [off] whatever the
    handle's offset; fewer than [n] bytes read is the error [io.EOF]. *)
Definition File_ReadAt (fs : gmap string (list byte)) (f : File) (n : nat)
    (off : Z) : list byte + os_error :=
  if decide (off < 0)%Z then inr (ErrOther "negative offset")
  else
    let data := default [] (fs !! f_name f) in
    let got := take n (drop (Z.to_nat off) data) in
    if decide (length got < n) then inr (ErrOther "EOF") else inl got.

(** [f.WriteAt(content, off)]: writes at [off] whatever the handle's
    offset. *)
Definition File_WriteAt (fs : gmap string (list byte)) (f : File)
    (content : list byte) (off : Z) : gmap string (list byte) * option os_error :=
  if decide (off < 0)%Z then (fs, Some (ErrOther "negative offset"))
  else
    match fs !! f_name f with
    | Some data =>
        (<[f_name f := write_at (Z.to_nat off) content data]> fs, None)
    | None => (fs, Some ErrNotExist)
    end.

Definition pieceStatus_path (p : pieceStatus) (filepath : string) : string :=
  filepath +:+ "_status".

(** [pieceStatus.init]; [make([]byte, n)] panics when [n] is negative. *)
Definition pieceStatus_init (fs : gmap string (list byte)) (p : pieceStatus)
    (filepath : string) : outcome (gmap string (list byte) * option os_error) :=
  let fp := pieceStatus_path p filepath in
  let err := match os_Stat fs fp with inl _ => None | inr e => Some e end in
  if negb (os_IsNotExist err) then Returns (fs, None)
  else if decide (numPieces p < 0)%Z
  then Panics "makeslice: len out of range"
  else
    Returns (ioutil_WriteFile fs fp
               (replicate (Z.to_nat (numPieces p)) pieceClean)).

(** [pieceStatus.set]. *)
Definition pieceStatus_set (fs : gmap string (list byte)) (p : pieceStatus)
    (filepath : string) (content : list byte)
  : outcome (gmap string (list byte) * (bool * option os_error)) :=
  let fp := pieceStatus_path p filepath in
  match pieceStatus_init fs p filepath with
  | Panics msg => Panics msg
  | Returns (fs1, Some e) => Returns (fs1, (false, Some e))
  | Returns (fs1, None) =>
      if decide (length content ≠ 1)
      then Returns (fs1, (false, Some (ErrOther
                      ("Invalid content: " +:+ fmt_bytes content))))
      else
        match ioutil_ReadFile fs1 fp with
        | inr e => Returns (fs1, (false, Some e))
        | inl data =>
            if decide (index p < 0 ∨ index p >= Z.of_nat (length data))%Z
            then Returns (fs1, (false, Some (ErrOther
                            ("Index out of range for " +:+ fp +:+ ": "
                               +:+ pretty (index p)))))
            else if decide (data !! Z.to_nat (index p) = content !! 0)
            then Returns (fs1, (false, None))
            else
              match os_OpenFile fs1 fp with
              | inr e => Returns (fs1, (false, Some e))
              | inl f =>
                  match File_WriteAt fs1 f content (index p) with
                  | (fs2, Some e) => Returns (fs2, (false, Some e))
                  | (fs2, None) => Returns (fs2, (true, None))
                  end
              end
        end
  end.

(** [pieceStatus.get]. *)
Definition pieceStatus_get (fs : gmap string (list byte)) (p : pieceStatus)
    (filepath : string) : list byte + os_error :=
  let fp := pieceStatus_path p filepath in
  match os_Stat fs fp with
  | inr e => inr e
  | inl _ =>
      match os_Open fs fp with
      | inr e => inr e
      | inl f => File_ReadAt fs f 1 (index p)
      end
  end.

Definition pieceStatus_delete (fs : gmap string (list byte)) (p : pieceStatus)
    (filepath : string) : gmap string (list byte) * option os_error :=
  let fp := pieceStatus_path p filepath in
  match os_RemoveAll fs fp with
  | (fs', Some e) => (fs', Some e)
  | (fs', None) => (fs', None)
  end.

(** ** Properties of the metadata files *)

(** X1. [compareMetadata] decides equality of the two byte slices: it
    returns true exactly when they have the same length and the same bytes. *)
Theorem compareMetadata_decides (d1 d2 : list byte) :
  compareMetadata d1 d2 = bool_decide (d1 = d2).
Proof.
  destruct (compareMetadata d1 d2) eqn:Hcmp; symmetry.
  - apply bool_decide_eq_true, compareMetadata_eq, Hcmp.
  - apply bool_decide_eq_false. intros Heq.
    apply compareMetadata_eq in Heq. congruence.
Qed.

Lemma overwritten_empty (content : list byte) :
  overwritten [] content = content.
Proof.
  unfold overwritten. destruct content as [|b content]; simpl.
  - by destruct (decide (0 ≠ 0)).
  - destruct (decide (0 ≠ S (length content))) as [_|Heq]; [|lia].
    unfold write_at, truncate_bytes. simpl.
    rewrite drop_replicate, Nat.sub_diag. simpl. by rewrite app_nil_r.
Qed.

(** Setting no bytes empties the file: the truncation does it, and the write
    that follows writes nothing. *)
Lemma overwritten_nothing (old : list byte) : overwritten old [] = [].
Proof.
  unfold overwritten. simpl. destruct old as [|b old]; simpl.
  - by destruct (decide (0 ≠ 0)).
  - by destruct (decide (S (length old) ≠ 0)).
Qed.

(** What [startedAt.set] returns and leaves behind, case by case. *)
Lemma startedAt_set_cases (fs : gmap string (list byte)) (filepath : string)
    (content : list byte) :
  startedAt_set fs filepath content
  = match fs !! startedAt_path filepath with
    | None => (<[startedAt_path filepath := content]> fs, (true, None))
    | Some old =>
        if decide (old = content) then (fs, (false, None))
        else (<[startedAt_path filepath := overwritten old content]> fs,
              (true, None))
    end.
Proof.
  destruct (fs !! startedAt_path filepath) as [old|] eqn:Hold.
  - destruct (decide (old = content)) as [->|Hne].
    + unfold startedAt_set, os_Stat, os_OpenFile, File_Stat, os_Stat.
      rewrite Hold. cbn -[File_Read compareMetadata].
      rewrite Hold. cbn -[File_Read compareMetadata].
      rewrite (File_Read_whole _ _ _ Hold).
      by rewrite (proj2 (compareMetadata_eq content content) eq_refl).
    + by apply startedAt_set_existing.
  - unfold startedAt_set, os_Stat. by rewrite Hold.
Qed.

(** X3. [startedAt.set] never returns an error here; it returns false
    exactly when the file already holds [content], and then it has changed
    nothing. *)
Theorem startedAt_set_returns (fs : gmap string (list byte))
    (filepath : string) (content : list byte) :
  (startedAt_set fs filepath content).2
  = (bool_decide (fs !! startedAt_path filepath ≠ Some content), None)
  ∧ ((startedAt_set fs filepath content).2.1 = true
     ∨ (startedAt_set fs filepath content).1 = fs).
Proof.
  rewrite startedAt_set_cases.
  destruct (fs !! startedAt_path filepath) as [old|]; [|by auto].
  destruct (decide (old = content)) as [->|Hne]; simpl.
  - split; [|by right]. by rewrite bool_decide_eq_false_2 by auto.
  - split; [|by left]. rewrite bool_decide_eq_true_2; [done|congruence].
Qed.

(** X2. [startedAt.get] after [startedAt.set] returns [content] exactly when
    there was no file, the file was empty, the file already held [content],
    or [content] is empty (the file is then truncated to nothing and nothing
    is written). *)
Theorem startedAt_get_after_set (fs : gmap string (list byte))
    (filepath : string) (content : list byte) :
  startedAt_get (startedAt_set fs filepath content).1 filepath = inl content
  ↔ fs !! startedAt_path filepath = None
    ∨ fs !! startedAt_path filepath = Some []
    ∨ fs !! startedAt_path filepath = Some content
    ∨ content = [].
Proof.
  rewrite startedAt_set_cases.
  destruct (fs !! startedAt_path filepath) as [old|] eqn:Hold.
  - destruct (decide (old = content)) as [->|Hne]; simpl.
    + unfold startedAt_get, os_Stat, ioutil_ReadFile. rewrite Hold. simpl.
      split; auto.
    + unfold startedAt_get, os_Stat, ioutil_ReadFile.
      rewrite lookup_insert_eq. simpl. split.
      * intros [= Heq]. destruct old as [|b old]; [by auto|].
        destruct content as [|c content]; [by auto 6|].
        pose proof (write_at_length (length (b :: old)) (c :: content)
          (if decide (length (b :: old) ≠ length (c :: content))
           then truncate_bytes (length (c :: content)) (b :: old)
           else b :: old)) as Hlen.
        fold (overwritten (b :: old) (c :: content)) in Hlen.
        rewrite Heq in Hlen. simpl in Hlen. specialize (Hlen ltac:(done)). lia.
      * intros [?|[[= ->]|[[= ->]| ->]]]; [done| |done|].
        -- by rewrite overwritten_empty.
        -- by rewrite overwritten_nothing.
  - simpl. unfold startedAt_get, os_Stat, ioutil_ReadFile.
    rewrite lookup_insert_eq. simpl. split; auto.
Qed.

(** X4. [startedAt.set] touches no path but its own, and a file is at that
    path afterwards. *)
Theorem startedAt_set_frame (fs : gmap string (list byte)) (filepath : string)
    (content : list byte) (fp : string) :
  fp ≠ startedAt_path filepath →
  (startedAt_set fs filepath content).1 !! fp = fs !! fp
  ∧ is_Some ((startedAt_set fs filepath content).1 !! startedAt_path filepath).
Proof.
  intros Hne. rewrite startedAt_set_cases.
  destruct (fs !! startedAt_path filepath) as [old|] eqn:Hold.
  - destruct (decide (old = content)); simpl.
    + by rewrite Hold.
    + rewrite lookup_insert_ne by done. by rewrite lookup_insert_eq.
  - simpl. rewrite lookup_insert_ne by done. by rewrite lookup_insert_eq.
Qed.

Lemma os_RemoveAll_gone (fs : gmap string (list byte)) (fp : string) :
  (os_RemoveAll fs fp).1 !! fp = None.
Proof.
  unfold os_RemoveAll. simpl. apply map_lookup_filter_None. right.
  intros data _ [Hne _]. by destruct Hne.
Qed.

(** X5. After [startedAt.delete], which reports no error whether or not the
    file was there, [get] fails with "not exist", and a [set] that follows
    returns true and is read back exactly by [get]. *)
Theorem startedAt_delete_then_set (fs : gmap string (list byte))
    (filepath : string) (content : list byte) :
  (startedAt_delete fs filepath).2 = None
  ∧ startedAt_get (startedAt_delete fs filepath).1 filepath = inr ErrNotExist
  ∧ (startedAt_set (startedAt_delete fs filepath).1 filepath content).2
    = (true, None)
  ∧ startedAt_get
      (startedAt_set (startedAt_delete fs filepath).1 filepath content).1
      filepath
    = inl content.
Proof.
  assert ((startedAt_delete fs filepath).1 !! startedAt_path filepath = None)
    as Hgone by apply os_RemoveAll_gone.
  split; [done|]. split.
  { unfold startedAt_get, os_Stat. by rewrite Hgone. }
  by apply startedAt_set_get_fresh.
Qed.

(** *** pieceStatus *)

Arguments write_at : simpl never.

Lemma take_1_drop (data : list byte) (i : nat) :
  take 1 (drop i data)
  = match data !! i with Some b => [b] | None => [] end.
Proof.
  destruct (data !! i) as [b|] eqn:Hi.
  - rewrite (drop_S _ _ _ Hi). simpl. by rewrite take_0.
  - apply lookup_ge_None in Hi. by rewrite drop_ge.
Qed.

Lemma write_at_insert (i : nat) (c : byte) (data : list byte) :
  i < length data → write_at i [c] data = <[i := c]> data.
Proof.
  intros Hi. unfold write_at.
  replace (i - length data) with 0 by lia. simpl.
  rewrite Nat.add_1_r. symmetry. by apply insert_take_drop.
Qed.

(** What [pieceStatus.get] returns, case by case. *)
Lemma pieceStatus_get_cases (fs : gmap string (list byte)) (p : pieceStatus)
    (filepath : string) :
  pieceStatus_get fs p filepath
  = match fs !! pieceStatus_path p filepath with
    | None => inr ErrNotExist
    | Some data =>
        if decide (index p < 0)%Z then inr (ErrOther "negative offset")
        else match data !! Z.to_nat (index p) with
             | Some b => inl [b]
             | None => inr (ErrOther "EOF")
             end
    end.
Proof.
  unfold pieceStatus_get, os_Stat, os_Open, os_OpenFile.
  destruct (fs !! pieceStatus_path p filepath) as [data|] eqn:Hdata; [|done].
  unfold File_ReadAt. simpl. destruct (decide (index p < 0)%Z); [done|].
  rewrite Hdata. simpl. rewrite take_1_drop.
  by destruct (data !! Z.to_nat (index p)).
Qed.

(** What [pieceStatus.set] does to a status file that exists. *)
Lemma pieceStatus_set_existing (fs : gmap string (list byte)) (p : pieceStatus)
    (filepath : string) (content data : list byte) :
  fs !! pieceStatus_path p filepath = Some data →
  pieceStatus_set fs p filepath content
  = Returns
      (if decide (length content ≠ 1)
       then (fs, (false, Some (ErrOther
                    ("Invalid content: " +:+ fmt_bytes content))))
       else if decide (index p < 0 ∨ index p >= Z.of_nat (length data))%Z
       then (fs, (false, Some (ErrOther
                    ("Index out of range for "
                       +:+ pieceStatus_path p filepath +:+ ": "
                       +:+ pretty (index p)))))
       else if decide (data !! Z.to_nat (index p) = content !! 0)
       then (fs, (false, None))
       else (<[pieceStatus_path p filepath :=
                 write_at (Z.to_nat (index p)) content data]> fs,
             (true, None))).
Proof.
  intros Hdata. unfold pieceStatus_set, pieceStatus_init, os_Stat.
  rewrite Hdata. simpl.
  destruct (decide (length content ≠ 1)); [done|].
  unfold ioutil_ReadFile. rewrite Hdata.
  destruct (decide (index p < 0 ∨ index p >= Z.of_nat (length data))%Z);
    [done|].
  destruct (decide (data !! Z.to_nat (index p) = content !! 0)); [done|].
  unfold os_OpenFile, File_WriteAt. rewrite Hdata. simpl.
  destruct (decide (index p < 0)%Z); [lia|]. by rewrite Hdata.
Qed.

(** On a path with no status file, [set] first creates one with [numPieces]
    clean entries. *)
Lemma pieceStatus_set_missing (fs : gmap string (list byte)) (p : pieceStatus)
    (filepath : string) (content : list byte) :
  fs !! pieceStatus_path p filepath = None →
  (0 <= numPieces p)%Z →
  pieceStatus_set fs p filepath content
  = pieceStatus_set
      (<[pieceStatus_path p filepath :=
           replicate (Z.to_nat (numPieces p)) pieceClean]> fs)
      p filepath content.
Proof.
  intros Hnone Hn. unfold pieceStatus_set at 1 2, pieceStatus_init, os_Stat.
  rewrite Hnone, lookup_insert_eq. simpl.
  destruct (decide (numPieces p < 0)%Z); [lia|]. done.
Qed.

(** X6. Round trip of a piece status: whenever [pieceStatus.set] returns
    without error, with true or with false, [pieceStatus.get] on the same
    piece returns exactly [content]. *)
Theorem pieceStatus_set_get (fs fs' : gmap string (list byte))
    (p : pieceStatus) (filepath : string) (content : list byte) (b : bool) :
  pieceStatus_set fs p filepath content = Returns (fs', (b, None)) →
  pieceStatus_get fs' p filepath = inl content.
Proof.
  assert (∀ fs0 data,
    fs0 !! pieceStatus_path p filepath = Some data →
    pieceStatus_set fs0 p filepath content = Returns (fs', (b, None)) →
    pieceStatus_get fs' p filepath = inl content) as Hexisting.
  { intros fs0 data Hdata. rewrite (pieceStatus_set_existing _ _ _ _ _ Hdata).
    destruct (decide (length content ≠ 1)); [by intros [=]|].
    destruct (decide (index p < 0 ∨ index p >= Z.of_nat (length data))%Z);
      [by intros [=]|].
    destruct content as [|c [|? ?]]; simpl in *; try lia.
    rewrite pieceStatus_get_cases.
    destruct (decide (data !! Z.to_nat (index p) = Some c)) as [Hc|Hc];
      intros [= <- <-].
    - rewrite Hdata. destruct (decide (index p < 0)%Z); [lia|]. by rewrite Hc.
    - rewrite lookup_insert_eq. destruct (decide (index p < 0)%Z); [lia|].
      rewrite write_at_insert by lia.
      by rewrite list_lookup_insert_eq by lia. }
  destruct (fs !! pieceStatus_path p filepath) as [data|] eqn:Hdata.
  { by apply Hexisting with data. }
  destruct (decide (numPieces p < 0)%Z) as [Hneg|Hpos].
  - unfold pieceStatus_set, pieceStatus_init, os_Stat. rewrite Hdata. simpl.
    destruct (decide (numPieces p < 0)%Z); [done|lia].
  - rewrite pieceStatus_set_missing by (done || lia).
    apply Hexisting with (replicate (Z.to_nat (numPieces p)) pieceClean).
    by rewrite lookup_insert_eq.
Qed.

(** X7. On a status file that exists, [pieceStatus.set] keeps the number of
    entries and leaves every other piece as it was: whatever it returns,
    [get] of another index answers as before. *)
Theorem pieceStatus_set_other_pieces (fs fs' : gmap string (list byte))
    (p : pieceStatus) (filepath : string) (content data : list byte)
    (r : bool * option os_error) (j n : Z) :
  fs !! pieceStatus_path p filepath = Some data →
  pieceStatus_set fs p filepath content = Returns (fs', r) →
  j ≠ index p →
  pieceStatus_get fs' (getPieceStatus j n) filepath
  = pieceStatus_get fs (getPieceStatus j n) filepath
  ∧ ∃ data', fs' !! pieceStatus_path p filepath = Some data'
             ∧ length data' = length data.
Proof.
  intros Hdata Hset Hj. rewrite (pieceStatus_set_existing _ _ _ _ _ Hdata) in Hset.
  rewrite !pieceStatus_get_cases.
  change (pieceStatus_path (getPieceStatus j n) filepath)
    with (pieceStatus_path p filepath).
  destruct (decide (length content ≠ 1));
    [injection Hset as <- <-; rewrite Hdata; eauto|].
  destruct (decide (index p < 0 ∨ index p >= Z.of_nat (length data))%Z);
    [injection Hset as <- <-; rewrite Hdata; eauto|].
  destruct (decide (data !! Z.to_nat (index p) = content !! 0));
    [injection Hset as <- <-; rewrite Hdata; eauto|].
  injection Hset as <- <-. rewrite !lookup_insert_eq, Hdata.
  destruct content as [|c [|? ?]]; simpl in *; try lia.
  rewrite write_at_insert by lia. split.
  - simpl. destruct (decide (j < 0)%Z); [done|].
    rewrite list_lookup_insert_ne by lia. done.
  - eexists. split; [done|]. by rewrite length_insert.
Qed.

(** [set] of one piece on a path with no status file, in full. *)
Lemma pieceStatus_set_new_path (fs : gmap string (list byte)) (p : pieceStatus)
    (filepath : string) (b : byte) :
  fs !! pieceStatus_path p filepath = None →
  (0 <= index p < numPieces p)%Z →
  pieceStatus_set fs p filepath [b]
  = Returns
      (<[pieceStatus_path p filepath :=
           <[Z.to_nat (index p) := b]>
             (replicate (Z.to_nat (numPieces p)) pieceClean)]> fs,
       (bool_decide (b ≠ pieceClean), None)).
Proof.
  intros Hnone Hrange. rewrite pieceStatus_set_missing by (done || lia).
  erewrite pieceStatus_set_existing by apply lookup_insert_eq.
  rewrite length_replicate. simpl.
  destruct (decide (index p < 0 ∨ index p >= Z.of_nat (Z.to_nat (numPieces p)))%Z);
    [lia|].
  rewrite lookup_replicate_2 by lia.
  destruct (decide (Some pieceClean = Some b)) as [[= <-]|Hb].
  - rewrite bool_decide_eq_false_2 by auto.
    rewrite list_insert_id; [done|]. apply lookup_replicate_2. lia.
  - rewrite bool_decide_eq_true_2 by congruence.
    rewrite insert_insert_eq, write_at_insert; [done|].
    rewrite length_replicate. lia.
Qed.

(** X8. The first [pieceStatus.set] on a path, for a piece in range, creates
    the status file with [numPieces] entries, all clean but the piece that
    was set, and touches no other path; it returns true unless the status
    set is clean itself. *)
Theorem pieceStatus_set_fresh (fs : gmap string (list byte)) (p : pieceStatus)
    (filepath : string) (b : byte) :
  fs !! pieceStatus_path p filepath = None →
  (0 <= index p < numPieces p)%Z →
  ∃ fs',
    pieceStatus_set fs p filepath [b]
    = Returns (fs', (bool_decide (b ≠ pieceClean), None))
    ∧ fs' !! pieceStatus_path p filepath
      = Some (<[Z.to_nat (index p) := b]>
                (replicate (Z.to_nat (numPieces p)) pieceClean))
    ∧ ∀ fp, fp ≠ pieceStatus_path p filepath → fs' !! fp = fs !! fp.
Proof.
  intros Hnone Hrange. eexists. split; [by apply pieceStatus_set_new_path|].
  split; [apply lookup_insert_eq|].
  intros fp Hfp. by apply lookup_insert_ne.
Qed.

(** X9. On a status file that exists, [pieceStatus.set] never panics; it
    returns an error exactly when [content] is not one byte or the index is
    outside the file, and it returns true exactly when it changed the file:
    whenever it returns false, error or not, the file system is as before. *)
Theorem pieceStatus_set_existing_outcome (fs : gmap string (list byte))
    (p : pieceStatus) (filepath : string) (content data : list byte) :
  fs !! pieceStatus_path p filepath = Some data →
  ∃ fs' b err,
    pieceStatus_set fs p filepath content = Returns (fs', (b, err))
    ∧ (is_Some err
       ↔ length content ≠ 1
         ∨ (index p < 0)%Z ∨ (index p >= Z.of_nat (length data))%Z)
    ∧ (b = false ↔ fs' = fs).
Proof.
  intros Hdata. rewrite (pieceStatus_set_existing _ _ _ _ _ Hdata).
  destruct (decide (length content ≠ 1)).
  { eexists _, _, _. split; [done|]. split; [|done]. split; eauto. }
  destruct (decide (index p < 0 ∨ index p >= Z.of_nat (length data))%Z).
  { eexists _, _, _. split; [done|]. split; [|done]. split; [|eauto].
    intros _. tauto. }
  destruct (decide (data !! Z.to_nat (index p) = content !! 0)) as [Hsame|Hdiff].
  { eexists _, _, _. split; [done|]. split; [|done].
    split; [by intros [? [=]]|]. intros [?|[?|?]]; [done|lia|lia]. }
  eexists _, _, _. split; [done|]. split.
  { split; [by intros [? [=]]|]. intros [?|[?|?]]; [done|lia|lia]. }
  split; [done|]. intros Heq. exfalso. apply Hdiff.
  destruct content as [|c [|? ?]]; simpl in *; try lia.
  assert (<[pieceStatus_path p filepath :=
              write_at (Z.to_nat (index p)) [c] data]> fs
          !! pieceStatus_path p filepath = Some data) as Hlook
    by (by rewrite Heq).
  rewrite lookup_insert_eq in Hlook. injection Hlook as Hlook.
  rewrite write_at_insert in Hlook by lia. rewrite <- Hlook at 1.
  simpl. by rewrite list_lookup_insert_eq by lia.
Qed.

(** X10. [pieceStatus.get] returns one byte, the entry of the status file at
    [index]; it fails when there is no status file, when the index is
    negative and when it is at or beyond the end of the file. *)
Theorem pieceStatus_get_entry (fs : gmap string (list byte)) (p : pieceStatus)
    (filepath : string) (content : list byte) :
  pieceStatus_get fs p filepath = inl content
  ↔ ∃ data b, fs !! pieceStatus_path p filepath = Some data
              ∧ (0 <= index p)%Z
              ∧ data !! Z.to_nat (index p) = Some b
              ∧ content = [b].
Proof.
  rewrite pieceStatus_get_cases. split.
  - destruct (fs !! pieceStatus_path p filepath) as [data|]; [|done].
    destruct (decide (index p < 0)%Z); [done|].
    destruct (data !! Z.to_nat (index p)) as [b|] eqn:Hb; [|done].
    intros [= <-]. exists data, b. repeat split; (done || lia).
  - intros (data & b & -> & Hpos & -> & ->).
    destruct (decide (index p < 0)%Z); [lia|done].
Qed.

(** X11. On a path with no status file, [pieceStatus.set] panics when
    [numPieces] is negative; otherwise it returns, and whatever it returns,
    an error included, it has created the status file with [numPieces]
    entries. *)
Theorem pieceStatus_set_creates (fs : gmap string (list byte))
    (p : pieceStatus) (filepath : string) (content : list byte) :
  fs !! pieceStatus_path p filepath = None →
  if decide (numPieces p < 0)%Z
  then pieceStatus_set fs p filepath content
       = Panics "makeslice: len out of range"
  else ∃ fs' r data,
         pieceStatus_set fs p filepath content = Returns (fs', r)
         ∧ fs' !! pieceStatus_path p filepath = Some data
         ∧ length data = Z.to_nat (numPieces p).
Proof.
  intros Hnone. destruct (decide (numPieces p < 0)%Z) as [Hneg|Hpos].
  - unfold pieceStatus_set, pieceStatus_init, os_Stat. rewrite Hnone. simpl.
    by destruct (decide (numPieces p < 0)%Z).
  - rewrite pieceStatus_set_missing by (done || lia).
    set (clean := replicate (Z.to_nat (numPieces p)) pieceClean).
    set (fs1 := <[pieceStatus_path p filepath := clean]> fs).
    assert (fs1 !! pieceStatus_path p filepath = Some clean) as Hclean
      by apply lookup_insert_eq.
    assert (length clean = Z.to_nat (numPieces p)) as Hlen
      by apply length_replicate.
    rewrite (pieceStatus_set_existing _ _ _ _ _ Hclean).
    repeat case_decide; try (eexists _, _, _; split; [done|]; by split).
    eexists _, _, _. split; [done|]. rewrite lookup_insert_eq. split; [done|].
    destruct content as [|c [|? ?]]; simpl in *; try lia.
    rewrite write_at_insert by lia. by rewrite length_insert.
Qed.

(** X12. [pieceStatus.delete] deletes all statuses: after it, no piece can be
    read, and a [set] of one piece (in range) returns as on a new path, with
    every other piece read back clean. *)
Theorem pieceStatus_delete_resets (fs : gmap string (list byte))
    (p : pieceStatus) (filepath : string) (b : byte) (j : Z) :
  (0 <= index p < numPieces p)%Z →
  (0 <= j < numPieces p)%Z →
  j ≠ index p →
  (pieceStatus_delete fs p filepath).2 = None
  ∧ pieceStatus_get (pieceStatus_delete fs p filepath).1 p filepath
    = inr ErrNotExist
  ∧ ∃ fs',
      pieceStatus_set (pieceStatus_delete fs p filepath).1 p filepath [b]
      = Returns (fs', (bool_decide (b ≠ pieceClean), None))
      ∧ pieceStatus_get fs' p filepath = inl [b]
      ∧ pieceStatus_get fs' (getPieceStatus j (numPieces p)) filepath
        = inl [pieceClean].
Proof.
  intros Hi Hj Hne.
  assert ((pieceStatus_delete fs p filepath).1 !! pieceStatus_path p filepath
          = None) as Hgone by apply os_RemoveAll_gone.
  split; [done|]. split.
  { by rewrite pieceStatus_get_cases, Hgone. }
  eexists. split; [by apply pieceStatus_set_new_path|].
  rewrite !pieceStatus_get_cases.
  change (pieceStatus_path (getPieceStatus j (numPieces p)) filepath)
    with (pieceStatus_path p filepath).
  rewrite !lookup_insert_eq. simpl.
  destruct (decide (index p < 0)%Z); [lia|].
  destruct (decide (j < 0)%Z); [lia|]. split.
  - rewrite list_lookup_insert_eq; [done|]. rewrite length_replicate. lia.
  - rewrite list_lookup_insert_ne by lia.
    rewrite lookup_replicate_2; [done|lia].
Qed.

(** *** The theorems above on small files *)

(** Three pieces, all clean. *)
Definition fs_status : gmap string (list byte) :=
  {[ "f_status" := [x00; x00; x00] ]}.

Definition piece_1_of_3 : pieceStatus := getPieceStatus 1 3.

Lemma startedAt_set_frame_applied :
  "f_status" ≠ startedAt_path "f"
  ∧ (startedAt_set fs_status "f" [x78; x79]).1 !! "f_status"
    = fs_status !! "f_status"
  ∧ is_Some ((startedAt_set fs_status "f" [x78; x79]).1 !! startedAt_path "f").
Proof.
  split; [discriminate|].
  apply (startedAt_set_frame fs_status "f" [x78; x79] "f_status").
  discriminate.
Defined.

Lemma pieceStatus_set_get_applied :
  pieceStatus_set fs_status piece_1_of_3 "f" [pieceDone]
  = Returns (<["f_status" := [x00; x02; x00]]> fs_status, (true, None))
  ∧ pieceStatus_get (<["f_status" := [x00; x02; x00]]> fs_status)
      piece_1_of_3 "f"
    = inl [pieceDone].
Proof.
  split; [vm_compute; reflexivity|].
  apply (pieceStatus_set_get fs_status _ piece_1_of_3 "f" [pieceDone] true).
  vm_compute; reflexivity.
Defined.

Lemma pieceStatus_set_other_pieces_applied :
  fs_status !! pieceStatus_path piece_1_of_3 "f" = Some [x00; x00; x00]
  ∧ pieceStatus_set fs_status piece_1_of_3 "f" [pieceDone]
    = Returns (<["f_status" := [x00; x02; x00]]> fs_status, (true, None))
  ∧ 2%Z ≠ index piece_1_of_3
  ∧ (pieceStatus_get (<["f_status" := [x00; x02; x00]]> fs_status)
       (getPieceStatus 2 3) "f"
     = pieceStatus_get fs_status (getPieceStatus 2 3) "f"
     ∧ ∃ data',
         <["f_status" := [x00; x02; x00]]> fs_status
           !! pieceStatus_path piece_1_of_3 "f" = Some data'
         ∧ length data' = length [x00; x00; x00]).
Proof.
  split; [vm_compute; reflexivity|]. split; [vm_compute; reflexivity|].
  split; [discriminate|].
  apply (pieceStatus_set_other_pieces fs_status _ piece_1_of_3 "f"
           [pieceDone] [x00; x00; x00] (true, None) 2 3);
    [vm_compute; reflexivity | vm_compute; reflexivity | discriminate].
Defined.

Lemma pieceStatus_set_fresh_applied :
  (∅ : gmap string (list byte)) !! pieceStatus_path piece_1_of_3 "f" = None
  ∧ (0 <= index piece_1_of_3 < numPieces piece_1_of_3)%Z
  ∧ ∃ fs',
      pieceStatus_set ∅ piece_1_of_3 "f" [pieceDirty]
      = Returns (fs', (bool_decide (pieceDirty ≠ pieceClean), None))
      ∧ fs' !! pieceStatus_path piece_1_of_3 "f"
        = Some (<[Z.to_nat (index piece_1_of_3) := pieceDirty]>
                  (replicate (Z.to_nat (numPieces piece_1_of_3)) pieceClean))
      ∧ ∀ fp, fp ≠ pieceStatus_path piece_1_of_3 "f" →
              fs' !! fp = (∅ : gmap string (list byte)) !! fp.
Proof.
  split; [reflexivity|]. split; [simpl; lia|].
  apply (pieceStatus_set_fresh ∅ piece_1_of_3 "f" pieceDirty);
    [reflexivity | simpl; lia].
Defined.

Lemma pieceStatus_set_existing_outcome_applied :
  fs_status !! pieceStatus_path (getPieceStatus 3 3) "f" = Some [x00; x00; x00]
  ∧ ∃ fs' b err,
      pieceStatus_set fs_status (getPieceStatus 3 3) "f" [pieceDone]
      = Returns (fs', (b, err))
      ∧ (is_Some err
         ↔ length [pieceDone] ≠ 1
           ∨ (index (getPieceStatus 3 3) < 0)%Z
           ∨ (index (getPieceStatus 3 3)
              >= Z.of_nat (length [x00; x00; x00]))%Z)
      ∧ (b = false ↔ fs' = fs_status).
Proof.
  split; [vm_compute; reflexivity|].
  apply (pieceStatus_set_existing_outcome fs_status (getPieceStatus 3 3) "f"
           [pieceDone] [x00; x00; x00]).
  vm_compute; reflexivity.
Defined.

Lemma pieceStatus_set_creates_applied :
  (∅ : gmap string (list byte)) !! pieceStatus_path (getPieceStatus 0 (-1)) "f"
  = None
  ∧ pieceStatus_set ∅ (getPieceStatus 0 (-1)) "f" [pieceDone]
    = Panics "makeslice: len out of range".
Proof.
  split; [reflexivity|].
  apply (pieceStatus_set_creates ∅ (getPieceStatus 0 (-1)) "f" [pieceDone]).
  reflexivity.
Defined.

(** An index beyond the end: [set] reports an error, and has created the
    status file all the same. *)
Example pieceStatus_set_out_of_range_creates :
  ∃ e, pieceStatus_set ∅ (getPieceStatus 3 3) "f" [pieceDone]
       = Returns ({[ "f_status" := [x00; x00; x00] ]}, (false, Some e)).
Proof. eexists. vm_compute. reflexivity. Qed.

Lemma pieceStatus_delete_resets_applied :
  (0 <= index piece_1_of_3 < numPieces piece_1_of_3)%Z
  ∧ (0 <= 2 < numPieces piece_1_of_3)%Z
  ∧ 2%Z ≠ index piece_1_of_3
  ∧ (pieceStatus_delete fs_status piece_1_of_3 "f").2 = None
  ∧ pieceStatus_get (pieceStatus_delete fs_status piece_1_of_3 "f").1
      piece_1_of_3 "f"
    = inr ErrNotExist
  ∧ ∃ fs',
      pieceStatus_set (pieceStatus_delete fs_status piece_1_of_3 "f").1
        piece_1_of_3 "f" [pieceDone]
      = Returns (fs', (bool_decide (pieceDone ≠ pieceClean), None))
      ∧ pieceStatus_get fs' piece_1_of_3 "f" = inl [pieceDone]
      ∧ pieceStatus_get fs' (getPieceStatus 2 (numPieces piece_1_of_3)) "f"
        = inl [pieceClean].
Proof.
  split; [simpl; lia|]. split; [simpl; lia|]. split; [discriminate|].
  apply (pieceStatus_delete_resets fs_status piece_1_of_3 "f" pieceDone 2);
    [simpl; lia | simpl; lia | discriminate].
Defined.

End Store.

(* ===================================================================== *)
(** * lib/torrent/scheduler/events.go                                     *)
(* ===================================================================== *)

Module Sched.

(** ** Data the events carry

    [torlib.PeerID] and [torlib.InfoHash] are 20-byte arrays compared with
    [==]; they are the numbers those bytes spell.  A [time.Time] is a number of
    nanoseconds and a [time.Duration] an [int64] number of nanoseconds.  A
    pointer ([*conn.Conn], [*dispatcher], a channel) is a record or a number
    carrying the identity of what it points to. *)

Abbreviation PeerID := N (only parsing).
Abbreviation InfoHash := N (only parsing).
Abbreviation Time := Z (only parsing).
Abbreviation Duration := Z (only parsing).
Abbreviation chan := nat (only parsing).

Definition minDuration : Z := - 2 ^ 63.
Definition maxDuration : Z := 2 ^ 63 - 1.

(** [t.Sub(u)]: the difference, kept inside the range of a [Duration]. *)
Definition Time_Sub (t u : Time) : Duration :=
  Z.max minDuration (Z.min maxDuration (t - u)).

(** [t.Add(d)]. *)
Definition Time_Add (t : Time) (d : Duration) : Time := (t + d)%Z.

(** Modelled from the spec: [timeutil.MostRecent] (package [utils/timeutil] is
    not among the sources), the [max] of the instants it is given:
    "lastProgress = max(CreatedAt, ...)", "becameIdle = max(...)". *)
Definition MostRecent (ts : list Time) : Time :=
  match ts with
  | [] => 0%Z
  | t :: rest => foldl Z.max t rest
  end.

Inductive error :=
  | ErrTorrentCancelled
  | errTorrentAtCapacity
  | errOther (msg : string).

#[global] Instance error_eq_dec : EqDecision error.
Proof. solve_decision. Defined.

(** [torlib.PeerInfo], one peer of an announce response. *)
Record PeerInfo := {
  pi_PeerID : string;
  pi_IP : string;
  pi_Port : Z;
}.

Record TorrentInfo := {
  ti_Name : string;
  ti_InfoHash : InfoHash;
}.

(** [storage.Torrent], as far as the events read it. *)
Record Torrent := {
  t_Name : string;
  t_InfoHash : InfoHash;
}.

Definition Torrent_Stat (t : Torrent) : TorrentInfo :=
  {| ti_Name := t_Name t; ti_InfoHash := t_InfoHash t |}.

Record Conn := {
  c_id : nat;
  c_PeerID : PeerID;
  c_InfoHash : InfoHash;
  c_CreatedAt : Time;
}.

Record PendingConn := {
  pc_id : nat;
  pc_PeerID : PeerID;
  pc_InfoHash : InfoHash;
  pc_Name : string;
  pc_Bitfield : list bool;
}.

(** A [*dispatcher]: its identity and the fields that never change. *)
Record dispatcher := {
  d_id : nat;
  d_Torrent : Torrent;
  d_CreatedAt : Time;
}.

(** What the query methods of a dispatcher answer while one [Apply] runs.  The
    dispatcher works concurrently with the scheduler; between two events
    these answers may change (see [DispatcherProgress] below). *)
Record dispatcherObs := {
  Empty : bool;
  LastConnRemoved : Time;
  LastGoodPieceReceived : PeerID → Time;
  LastPieceSent : PeerID → Time;
}.

(** [*torrentControl]; [Observed] is the state of the object [Dispatcher]
    points to. *)
Record torrentControl := {
  Dispatcher : dispatcher;
  Complete : bool;
  Errors : list chan;
  Observed : dispatcherObs;
}.

Record BlacklistedConn := {
  bl_PeerID : PeerID;
  bl_InfoHash : InfoHash;
  bl_Expiry : Time;
}.

Record Config := {
  IdleConnTTL : Duration;
  ConnTTL : Duration;
  IdleSeederTTL : Duration;
}.

#[global] Instance PeerInfo_eq_dec : EqDecision PeerInfo.
Proof. solve_decision. Defined.
#[global] Instance TorrentInfo_eq_dec : EqDecision TorrentInfo.
Proof. solve_decision. Defined.
#[global] Instance Torrent_eq_dec : EqDecision Torrent.
Proof. solve_decision. Defined.
#[global] Instance Conn_eq_dec : EqDecision Conn.
Proof. solve_decision. Defined.
#[global] Instance PendingConn_eq_dec : EqDecision PendingConn.
Proof. solve_decision. Defined.
#[global] Instance dispatcher_eq_dec : EqDecision dispatcher.
Proof. solve_decision. Defined.

(** ** Events *)

Inductive event :=
  | closedConnEvent (c : Conn)
  | failedHandshakeEvent (peerID : PeerID) (infoHash : InfoHash)
  | incomingHandshakeEvent (pc : PendingConn)
  | incomingConnEvent (c : Conn) (bitfield : list bool) (info : TorrentInfo)
  | outgoingConnEvent (c : Conn) (bitfield : list bool) (info : TorrentInfo)
  | announceTickEvent
  | announceResponseEvent (infoHash : InfoHash) (peers : list PeerInfo)
  | announceFailureEvent (d : dispatcher)
  | newTorrentEvent (torrent : Torrent) (errc : chan)
  | completedDispatcherEvent (d : dispatcher)
  | preemptionTickEvent
  | cleanupBlacklistEvent
  | emitStatsEvent
  | cancelTorrentEvent (name : string)
  | blacklistSnapshotEvent (result : chan).

#[global] Instance event_eq_dec : EqDecision event.
Proof. solve_decision. Defined.

(** ** What an [Apply] does besides changing the scheduler

    A goroutine started with [go] is recorded as the [task] it will run; what
    the task does later is given by the [run_] functions below. *)

Inductive task :=
  | establishIncoming (pc : PendingConn)
  | initializeOutgoing (pid : PeerID) (p : PeerInfo) (infoHash : InfoHash)
      (d : dispatcher)
  | announce (d : dispatcher).

Inductive networkEvent :=
  | TorrentCompleteEvent (h : InfoHash) (peer : PeerID)
  | TorrentCancelledEvent (h : InfoHash) (peer : PeerID).

Inductive effect :=
  | EClosePending (pc : PendingConn)
  | ECloseConn (c : Conn)
  | EGo (t : task)
  | ESend (errc : chan) (v : option error)
  | ESendSnapshot (result : chan) (snapshot : list BlacklistedConn)
  | ETearDown (d : dispatcher)
  | EProduce (e : networkEvent)
  | EGauge (name : string) (v : Z).

#[global] Instance task_eq_dec : EqDecision task.
Proof. solve_decision. Defined.
#[global] Instance networkEvent_eq_dec : EqDecision networkEvent.
Proof. solve_decision. Defined.
#[global] Instance BlacklistedConn_eq_dec : EqDecision BlacklistedConn.
Proof. solve_decision. Defined.
#[global] Instance effect_eq_dec : EqDecision effect.
Proof. solve_decision. Defined.

(** What a task does when it runs: close a pending connection, or send an
    event to the loop. *)
Inductive taskAction :=
  | TClose (pc : PendingConn)
  | TSend (e : event).

(** The goroutine of [incomingHandshakeEvent.Apply]; [Stat] is
    [s.torrentArchive.Stat] and [Establish] is [s.handshaker.Establish]. *)
Definition run_establishIncoming
    (Stat : string → TorrentInfo + error)
    (Establish : PendingConn → TorrentInfo → Conn + error)
    (pc : PendingConn) : list taskAction :=
  match Stat (pc_Name pc) with
  | inr _ => [TClose pc]
  | inl info =>
      match Establish pc info with
      | inr _ =>
          [TClose pc; TSend (failedHandshakeEvent (pc_PeerID pc) (pc_InfoHash pc))]
      | inl c => [TSend (incomingConnEvent c (pc_Bitfield pc) info)]
      end
  end.

(** The goroutine of [announceResponseEvent.Apply]; [Initialize] is
    [s.handshaker.Initialize]. *)
Definition run_initializeOutgoing
    (Initialize : PeerID → string → TorrentInfo → (Conn * list bool) + error)
    (pid : PeerID) (p : PeerInfo) (infoHash : InfoHash) (d : dispatcher)
  : list taskAction :=
  let addr := pi_IP p +:+ ":" +:+ pretty (pi_Port p) in
  let info := Torrent_Stat (d_Torrent d) in
  match Initialize pid addr info with
  | inr _ => [TSend (failedHandshakeEvent pid infoHash)]
  | inl (c, bitfield) => [TSend (outgoingConnEvent c bitfield info)]
  end.

(** ** The collaborators of the scheduler

    [connState] (connstate.go), the announce queue, package [torlib] and the
    scheduler's own helper methods (scheduler.go) are not among the sources.
    The events are embedded over their interfaces; a model of each, following
    the specification, is given further down ([spec_connState] and the
    instances after it). *)

(** The methods of [*connState] the events call.  [now] is the reading of the
    clock the object shares with the scheduler. *)
Class ConnStateOps := {
  connStateT : Type;
  AddPending : PeerID → InfoHash → Time → connStateT → connStateT * option error;
  DeletePending : PeerID → InfoHash → connStateT → connStateT;
  DeleteActive : Conn → connStateT → connStateT;
  Blacklist : PeerID → InfoHash → Time → connStateT → connStateT * option error;
  DeleteStaleBlacklistEntries : Time → connStateT → connStateT;
  ActiveConns : connStateT → list Conn;
  NumActiveConns : connStateT → nat;
  BlacklistSnapshot : Time → connStateT → list BlacklistedConn;
}.

(** The methods of the announce queue. *)
Class AnnounceQueueOps := {
  announceQueueT : Type;
  aq_Add : dispatcher → announceQueueT → announceQueueT;
  aq_Next : announceQueueT → announceQueueT * option dispatcher;
  aq_Ready : dispatcher → announceQueueT → announceQueueT;
  aq_Done : dispatcher → announceQueueT → announceQueueT;
  aq_Eject : dispatcher → announceQueueT → announceQueueT;
}.

(** [torlib.NewPeerID], and the order in which a [for ... range] statement
    visits [s.torrentControls]: Go fixes no order, so any enumeration of the
    entries of the map is allowed. *)
Class Runtime := {
  NewPeerID : string → PeerID + error;
  range_controls :
    gmap InfoHash torrentControl → list (InfoHash * torrentControl);
  range_controls_perm m : range_controls m ≡ₚ map_to_list m;
}.

(** The fields of [Scheduler] the events read and write.  [clock_Now] is
    what [s.clock.Now()] answers while an [Apply] runs: one instant for the
    whole [Apply]. *)
Record Scheduler `{!ConnStateOps, !AnnounceQueueOps} := {
  pctx_PeerID : PeerID;
  config : Config;
  clock_Now : Time;
  connState : connStateT;
  announceQueue : announceQueueT;
  torrentControls : gmap InfoHash torrentControl;
}.

Section Events.

Context `{!ConnStateOps, !AnnounceQueueOps, !Runtime}.

Definition set_connState (cs : connStateT) (s : Scheduler) : Scheduler :=
  {| pctx_PeerID := pctx_PeerID s; config := config s;
     clock_Now := clock_Now s; connState := cs;
     announceQueue := announceQueue s;
     torrentControls := torrentControls s |}.

Definition set_announceQueue (q : announceQueueT) (s : Scheduler) : Scheduler :=
  {| pctx_PeerID := pctx_PeerID s; config := config s;
     clock_Now := clock_Now s; connState := connState s;
     announceQueue := q;
     torrentControls := torrentControls s |}.

Definition set_torrentControls (m : gmap InfoHash torrentControl)
    (s : Scheduler) : Scheduler :=
  {| pctx_PeerID := pctx_PeerID s; config := config s;
     clock_Now := clock_Now s; connState := connState s;
     announceQueue := announceQueue s;
     torrentControls := m |}.

Definition set_clock_Now (t : Time) (s : Scheduler) : Scheduler :=
  {| pctx_PeerID := pctx_PeerID s; config := config s;
     clock_Now := t; connState := connState s;
     announceQueue := announceQueue s;
     torrentControls := torrentControls s |}.

Definition set_Complete (b : bool) (ctrl : torrentControl) : torrentControl :=
  {| Dispatcher := Dispatcher ctrl; Complete := b; Errors := Errors ctrl;
     Observed := Observed ctrl |}.

Definition set_Errors (errs : list chan) (ctrl : torrentControl)
  : torrentControl :=
  {| Dispatcher := Dispatcher ctrl; Complete := Complete ctrl; Errors := errs;
     Observed := Observed ctrl |}.

Definition set_Observed (o : dispatcherObs) (ctrl : torrentControl)
  : torrentControl :=
  {| Dispatcher := Dispatcher ctrl; Complete := Complete ctrl;
     Errors := Errors ctrl; Observed := o |}.

(** The helper methods of [Scheduler] that events.go calls and scheduler.go
    defines: the dispatcher factory and the completion flag of a control that
    [initTorrentControl] creates, [addIncomingConn] and [addOutgoingConn]. *)
Class SchedulerHelpers := {
  newDispatcher : Torrent → Scheduler → dispatcher * dispatcherObs;
  initComplete : Torrent → bool;
  addIncomingConn :
    Conn → list bool → TorrentInfo → Scheduler → Scheduler * option error;
  addOutgoingConn :
    Conn → list bool → TorrentInfo → Scheduler → Scheduler * option error;
}.

Context `{!SchedulerHelpers}.

(** Modelled from the spec: [Scheduler.initTorrentControl] (scheduler.go is
    not among the sources): "create one (builds a new Dispatcher for t, adds
    it to AnnounceQueue, enters the map)".  The control is entered under
    [t.InfoHash()], with no subscriber yet. *)
Definition initTorrentControl (t : Torrent) (s : Scheduler)
  : Scheduler * torrentControl :=
  let '(d, obs) := newDispatcher t s in
  let ctrl := {| Dispatcher := d; Complete := initComplete t; Errors := [];
                 Observed := obs |} in
  (set_torrentControls (<[t_InfoHash t := ctrl]> (torrentControls s))
     (set_announceQueue (aq_Add d (announceQueue s)) s),
   ctrl).

(** *** closedConnEvent *)

Definition Apply_closedConn (c : Conn) (s : Scheduler)
  : Scheduler * list effect :=
  let cs1 := DeleteActive c (connState s) in
  let '(cs2, _) := Blacklist (c_PeerID c) (c_InfoHash c) (clock_Now s) cs1 in
  (set_connState cs2 s, []).

(** *** failedHandshakeEvent *)

Definition Apply_failedHandshake (peerID : PeerID) (infoHash : InfoHash)
    (s : Scheduler) : Scheduler * list effect :=
  let cs1 := DeletePending peerID infoHash (connState s) in
  let '(cs2, _) := Blacklist peerID infoHash (clock_Now s) cs1 in
  (set_connState cs2 s, []).

(** *** incomingHandshakeEvent *)

Definition Apply_incomingHandshake (pc : PendingConn) (s : Scheduler)
  : Scheduler * list effect :=
  match AddPending (pc_PeerID pc) (pc_InfoHash pc) (clock_Now s) (connState s) with
  | (cs1, Some _) => (set_connState cs1 s, [EClosePending pc])
  | (cs1, None) => (set_connState cs1 s, [EGo (establishIncoming pc)])
  end.

(** *** incomingConnEvent, outgoingConnEvent *)

Definition Apply_incomingConn (c : Conn) (bitfield : list bool)
    (info : TorrentInfo) (s : Scheduler) : Scheduler * list effect :=
  match addIncomingConn c bitfield info s with
  | (s1, Some _) => (s1, [ECloseConn c])
  | (s1, None) => (s1, [])
  end.

Definition Apply_outgoingConn (c : Conn) (bitfield : list bool)
    (info : TorrentInfo) (s : Scheduler) : Scheduler * list effect :=
  match addOutgoingConn c bitfield info s with
  | (s1, Some _) => (s1, [ECloseConn c])
  | (s1, None) => (s1, [])
  end.

(** *** announceTickEvent *)

Definition Apply_announceTick (s : Scheduler) : Scheduler * list effect :=
  match aq_Next (announceQueue s) with
  | (q, None) => (set_announceQueue q s, [])
  | (q, Some d) => (set_announceQueue q s, [EGo (announce d)])
  end.

(** *** announceResponseEvent *)

(** The loop [for i := 0; i < len(e.peers); i++] of
    [announceResponseEvent.Apply], entered at index [i] with [fuel] iterations
    left.  [continue] goes on at [i + 1], [break] returns. *)
Fixpoint connectPeers (fuel i : nat) (self : PeerID) (infoHash : InfoHash)
    (now : Time) (d : dispatcher) (peers : list PeerInfo) (cs : connStateT)
  : connStateT * list effect :=
  match fuel with
  | O => (cs, [])
  | S fuel' =>
      match peers !! i with
      | None => (cs, [])
      | Some p =>
          match NewPeerID (pi_PeerID p) with
          | inr _ => connectPeers fuel' (S i) self infoHash now d peers cs
          | inl pid =>
              if decide (pid = self)
              then connectPeers fuel' (S i) self infoHash now d peers cs
              else
                match AddPending pid infoHash now cs with
                | (cs1, Some err) =>
                    if decide (err = errTorrentAtCapacity)
                    then (cs1, [])
                    else connectPeers fuel' (S i) self infoHash now d peers cs1
                | (cs1, None) =>
                    let '(cs2, effs) :=
                      connectPeers fuel' (S i) self infoHash now d peers cs1 in
                    (cs2, EGo (initializeOutgoing pid p infoHash d) :: effs)
                end
          end
      end
  end.

Definition Apply_announceResponse (infoHash : InfoHash) (peers : list PeerInfo)
    (s : Scheduler) : Scheduler * list effect :=
  match torrentControls s !! infoHash with
  | None => (s, [])
  | Some ctrl =>
      let s1 := set_announceQueue
                  (aq_Ready (Dispatcher ctrl) (announceQueue s)) s in
      if Complete ctrl then (s1, [])
      else
        let '(cs, effs) :=
          connectPeers (length peers) 0 (pctx_PeerID s) infoHash (clock_Now s)
            (Dispatcher ctrl) peers (connState s1) in
        (set_connState cs s1, effs)
  end.

(** *** announceFailureEvent *)

Definition Apply_announceFailure (d : dispatcher) (s : Scheduler)
  : Scheduler * list effect :=
  (set_announceQueue (aq_Ready d (announceQueue s)) s, []).

(** *** newTorrentEvent

    [ctrl] is a pointer into the map: the [append] to [ctrl.Errors] changes
    the control stored under [e.torrent.InfoHash()]. *)

Definition Apply_newTorrent (torrent : Torrent) (errc : chan) (s : Scheduler)
  : Scheduler * list effect :=
  let '(s1, ctrl) :=
    match torrentControls s !! t_InfoHash torrent with
    | Some ctrl => (s, ctrl)
    | None => initTorrentControl torrent s
    end in
  if Complete ctrl then (s1, [ESend errc None])
  else
    (set_torrentControls
       (<[t_InfoHash torrent := set_Errors (Errors ctrl ++ [errc]) ctrl]>
          (torrentControls s1)) s1,
     []).

(** *** completedDispatcherEvent *)

Definition Apply_completedDispatcher (d : dispatcher) (s : Scheduler)
  : Scheduler * list effect :=
  let infoHash := t_InfoHash (d_Torrent d) in
  let s1 := set_announceQueue (aq_Done d (announceQueue s)) s in
  match torrentControls s1 !! infoHash with
  | None => (s1, [])
  | Some ctrl =>
      (set_torrentControls
         (<[infoHash := set_Complete true ctrl]> (torrentControls s1)) s1,
       map (λ errc, ESend errc None) (Errors ctrl)
         ++ [EProduce (TorrentCompleteEvent infoHash (pctx_PeerID s))])
  end.

(** *** preemptionTickEvent

    [c.Close()] only asks the connection to shut down; the scheduler and the
    dispatcher hear of it through a later [closedConnEvent], so the controls
    the second loop inspects are those the first loop saw. *)

(** The body of the first loop for one active connection. *)
Definition preemptConn (s : Scheduler) (c : Conn) : list effect :=
  match torrentControls s !! c_InfoHash c with
  | None => [ECloseConn c]
  | Some ctrl =>
      let lastProgress :=
        MostRecent [c_CreatedAt c;
                    LastGoodPieceReceived (Observed ctrl) (c_PeerID c);
                    LastPieceSent (Observed ctrl) (c_PeerID c)] in
      if bool_decide (Time_Sub (clock_Now s) lastProgress
                      > IdleConnTTL (config s))%Z
      then [ECloseConn c]
      else if bool_decide (Time_Sub (clock_Now s) (c_CreatedAt c)
                           > ConnTTL (config s))%Z
      then [ECloseConn c]
      else []
  end.

(** The condition under which the second loop deletes a control. *)
Definition idleSeeder (cfg : Config) (now : Time) (ctrl : torrentControl)
  : bool :=
  Complete ctrl && Empty (Observed ctrl) &&
  (let becameIdle :=
     MostRecent [d_CreatedAt (Dispatcher ctrl);
                 LastConnRemoved (Observed ctrl)] in
   bool_decide (Time_Sub now becameIdle >= IdleSeederTTL cfg)%Z).

(** The second loop: [delete] inside [range] over the map. *)
Definition removeIdleSeeders (cfg : Config) (now : Time)
    (m : gmap InfoHash torrentControl) : gmap InfoHash torrentControl :=
  foldl (λ acc entry,
           if idleSeeder cfg now entry.2 then delete entry.1 acc else acc)
        m (range_controls m).

Definition Apply_preemptionTick (s : Scheduler) : Scheduler * list effect :=
  let effs := flat_map (preemptConn s) (ActiveConns (connState s)) in
  (set_torrentControls
     (removeIdleSeeders (config s) (clock_Now s) (torrentControls s)) s,
   effs).

(** *** cleanupBlacklistEvent, emitStatsEvent *)

Definition Apply_cleanupBlacklist (s : Scheduler) : Scheduler * list effect :=
  (set_connState (DeleteStaleBlacklistEntries (clock_Now s) (connState s)) s,
   []).

Definition Apply_emitStats (s : Scheduler) : Scheduler * list effect :=
  (s, [EGauge "torrents" (Z.of_nat (size (torrentControls s)));
       EGauge "conns" (Z.of_nat (NumActiveConns (connState s)))]).

(** *** cancelTorrentEvent *)

(** What the body of the [if] does to the control that matched. *)
Definition cancelControl (ctrl : torrentControl) (s : Scheduler)
  : Scheduler * list effect :=
  let h := t_InfoHash (d_Torrent (Dispatcher ctrl)) in
  (set_torrentControls (delete h (torrentControls s))
     (set_announceQueue (aq_Eject (Dispatcher ctrl) (announceQueue s)) s),
   [ETearDown (Dispatcher ctrl)]
     ++ map (λ errc, ESend errc (Some ErrTorrentCancelled)) (Errors ctrl)
     ++ [EProduce (TorrentCancelledEvent h (pctx_PeerID s))]).

(** The [range] loop with its [break], over the entries still to visit. *)
Fixpoint cancelScan (name : string) (entries : list (InfoHash * torrentControl))
    (s : Scheduler) : Scheduler * list effect :=
  match entries with
  | [] => (s, [])
  | (_, ctrl) :: rest =>
      if decide (t_Name (d_Torrent (Dispatcher ctrl)) = name)
      then cancelControl ctrl s
      else cancelScan name rest s
  end.

Definition Apply_cancelTorrent (name : string) (s : Scheduler)
  : Scheduler * list effect :=
  cancelScan name (range_controls (torrentControls s)) s.

(** *** blacklistSnapshotEvent *)

Definition Apply_blacklistSnapshot (result : chan) (s : Scheduler)
  : Scheduler * list effect :=
  (s, [ESendSnapshot result (BlacklistSnapshot (clock_Now s) (connState s))]).

(** *** The event loop's [e.Apply(s)] *)

Definition Apply (e : event) (s : Scheduler) : Scheduler * list effect :=
  match e with
  | closedConnEvent c => Apply_closedConn c s
  | failedHandshakeEvent peerID infoHash => Apply_failedHandshake peerID infoHash s
  | incomingHandshakeEvent pc => Apply_incomingHandshake pc s
  | incomingConnEvent c bitfield info => Apply_incomingConn c bitfield info s
  | outgoingConnEvent c bitfield info => Apply_outgoingConn c bitfield info s
  | announceTickEvent => Apply_announceTick s
  | announceResponseEvent infoHash peers => Apply_announceResponse infoHash peers s
  | announceFailureEvent d => Apply_announceFailure d s
  | newTorrentEvent torrent errc => Apply_newTorrent torrent errc s
  | completedDispatcherEvent d => Apply_completedDispatcher d s
  | preemptionTickEvent => Apply_preemptionTick s
  | cleanupBlacklistEvent => Apply_cleanupBlacklist s
  | emitStatsEvent => Apply_emitStats s
  | cancelTorrentEvent name => Apply_cancelTorrent name s
  | blacklistSnapshotEvent result => Apply_blacklistSnapshot result s
  end.

(** ** Runs of the loop

    [Run] applies the events it receives one after the other.  Between two
    events the clock may advance and a dispatcher may make progress, which
    changes what its query methods answer. *)

Inductive step :=
  | Event (e : event)
  | AdvanceClock (d : Duration)
  | DispatcherProgress (h : InfoHash) (obs : dispatcherObs).

Definition do_step (st : step) (s : Scheduler) : Scheduler * list effect :=
  match st with
  | Event e => Apply e s
  | AdvanceClock d => (set_clock_Now (Time_Add (clock_Now s) (Z.max 0 d)) s, [])
  | DispatcherProgress h obs =>
      (set_torrentControls (alter (set_Observed obs) h (torrentControls s)) s,
       [])
  end.

Fixpoint run (sts : list step) (s : Scheduler) : Scheduler * list effect :=
  match sts with
  | [] => (s, [])
  | st :: rest =>
      let '(s1, effs1) := do_step st s in
      let '(s2, effs2) := run rest s1 in
      (s2, effs1 ++ effs2)
  end.

End Events.

(** ** Models of the collaborators, from the specification *)

(** Modelled from the spec: [connState] (connstate.go is not among the
    sources), "the book of pending and active connections; enforces global
    and per-torrent capacity; owns the Blacklist".  The blacklist maps a
    (peer, infohash) pair to its expiry instant. *)
Record spec_connState := {
  MaxGlobalEgress : nat;
  MaxConnsPerTorrent : nat;
  BlacklistCooldown : Duration;
  pending : gset (PeerID * InfoHash);
  active : list Conn;
  blacklist : gmap (PeerID * InfoHash) Time;
}.

Definition connKey (c : Conn) : PeerID * InfoHash := (c_PeerID c, c_InfoHash c).

(** "An entry is stale when now ≥ expiry". *)
Definition blacklisted (now : Time) (k : PeerID * InfoHash)
    (cs : spec_connState) : bool :=
  match blacklist cs !! k with
  | Some expiry => bool_decide (now < expiry)%Z
  | None => false
  end.

Definition connsOfTorrent (h : InfoHash) (cs : spec_connState) : nat :=
  size (filter (λ k, k.2 = h) (pending cs))
  + length (filter (λ c, c_InfoHash c = h) (active cs)).

Definition connsTotal (cs : spec_connState) : nat :=
  size (pending cs) + length (active cs).

(** Modelled from the spec: [AddPending(peer, hash)] "move (peer,hash) into
    pending set"; fails when "blacklisted; already pending/active;
    per-torrent or global capacity reached", the per-torrent case with
    [errTorrentAtCapacity]. *)
Definition spec_AddPending (peer : PeerID) (h : InfoHash) (now : Time)
    (cs : spec_connState) : spec_connState * option error :=
  if blacklisted now (peer, h) cs then (cs, Some (errOther "conn is blacklisted"))
  else if bool_decide ((peer, h) ∈ pending cs)
  then (cs, Some (errOther "conn is already pending"))
  else if bool_decide ((peer, h) ∈ map connKey (active cs))
  then (cs, Some (errOther "conn is already active"))
  else if bool_decide (MaxConnsPerTorrent cs ≤ connsOfTorrent h cs)
  then (cs, Some errTorrentAtCapacity)
  else if bool_decide (MaxGlobalEgress cs ≤ connsTotal cs)
  then (cs, Some (errOther "scheduler is at capacity"))
  else
    ({| MaxGlobalEgress := MaxGlobalEgress cs;
        MaxConnsPerTorrent := MaxConnsPerTorrent cs;
        BlacklistCooldown := BlacklistCooldown cs;
        pending := {[ (peer, h) ]} ∪ pending cs;
        active := active cs;
        blacklist := blacklist cs |}, None).

(** Modelled from the spec: [DeletePending(peer, hash)] "remove from pending";
    "no-op if absent". *)
Definition spec_DeletePending (peer : PeerID) (h : InfoHash)
    (cs : spec_connState) : spec_connState :=
  {| MaxGlobalEgress := MaxGlobalEgress cs;
     MaxConnsPerTorrent := MaxConnsPerTorrent cs;
     BlacklistCooldown := BlacklistCooldown cs;
     pending := pending cs ∖ {[ (peer, h) ]};
     active := active cs;
     blacklist := blacklist cs |}.

(** Modelled from the spec: [AddActive(conn)] "move (peer,hash) from pending
    to active"; fails when "not in pending; active already contains it". *)
Definition spec_AddActive (c : Conn) (cs : spec_connState)
  : spec_connState * option error :=
  if bool_decide (connKey c ∉ pending cs)
  then (cs, Some (errOther "conn is not pending"))
  else if bool_decide (connKey c ∈ map connKey (active cs))
  then (cs, Some (errOther "conn is already active"))
  else
    ({| MaxGlobalEgress := MaxGlobalEgress cs;
        MaxConnsPerTorrent := MaxConnsPerTorrent cs;
        BlacklistCooldown := BlacklistCooldown cs;
        pending := pending cs ∖ {[ connKey c ]};
        active := active cs ++ [c];
        blacklist := blacklist cs |}, None).

(** Modelled from the spec: [DeleteActive(conn)] "remove from active";
    "no-op if absent". *)
Definition spec_DeleteActive (c : Conn) (cs : spec_connState)
  : spec_connState :=
  {| MaxGlobalEgress := MaxGlobalEgress cs;
     MaxConnsPerTorrent := MaxConnsPerTorrent cs;
     BlacklistCooldown := BlacklistCooldown cs;
     pending := pending cs;
     active := filter (λ c', c' ≠ c) (active cs);
     blacklist := blacklist cs |}.

(** Modelled from the spec: [Blacklist(peer, hash)] "insert with expiry = now
    + cooldown"; it is listed with no failure. *)
Definition spec_Blacklist (peer : PeerID) (h : InfoHash) (now : Time)
    (cs : spec_connState) : spec_connState * option error :=
  ({| MaxGlobalEgress := MaxGlobalEgress cs;
      MaxConnsPerTorrent := MaxConnsPerTorrent cs;
      BlacklistCooldown := BlacklistCooldown cs;
      pending := pending cs;
      active := active cs;
      blacklist :=
        <[(peer, h) := Time_Add now (BlacklistCooldown cs)]> (blacklist cs) |},
   None).

(** Modelled from the spec: [DeleteStaleBlacklistEntries()] "drop expired
    entries". *)
Definition spec_DeleteStaleBlacklistEntries (now : Time) (cs : spec_connState)
  : spec_connState :=
  {| MaxGlobalEgress := MaxGlobalEgress cs;
     MaxConnsPerTorrent := MaxConnsPerTorrent cs;
     BlacklistCooldown := BlacklistCooldown cs;
     pending := pending cs;
     active := active cs;
     blacklist := filter (λ kv, now < kv.2)%Z (blacklist cs) |}.

(** Modelled from the spec: [BlacklistSnapshot()] "ordered copy of current
    entries". *)
Definition spec_BlacklistSnapshot (now : Time) (cs : spec_connState)
  : list BlacklistedConn :=
  map (λ kv, {| bl_PeerID := kv.1.1; bl_InfoHash := kv.1.2; bl_Expiry := kv.2 |})
      (map_to_list (filter (λ kv, now < kv.2)%Z (blacklist cs))).

#[export] Instance spec_ConnStateOps : ConnStateOps := {|
  connStateT := spec_connState;
  AddPending := spec_AddPending;
  DeletePending := spec_DeletePending;
  DeleteActive := spec_DeleteActive;
  Blacklist := spec_Blacklist;
  DeleteStaleBlacklistEntries := spec_DeleteStaleBlacklistEntries;
  ActiveConns := active;
  NumActiveConns := λ cs, length (active cs);
  BlacklistSnapshot := spec_BlacklistSnapshot;
|}.

(** Modelled from the spec: the announce queue (its file is not among the
    sources): a FIFO of the dispatchers ready to announce and the set of
    those whose announce is pending. *)
Record spec_announceQueue := {
  ready : list dispatcher;
  announcing : list dispatcher;
}.

Definition without (d : dispatcher) (l : list dispatcher) : list dispatcher :=
  filter (λ d', d' ≠ d) l.

(** Modelled from the spec: [Add(d)] of the announce queue, "enqueue a newly
    created dispatcher at the tail of ready". *)
Definition spec_aq_Add (d : dispatcher) (q : spec_announceQueue)
  : spec_announceQueue :=
  {| ready := ready q ++ [d]; announcing := announcing q |}.

(** Modelled from the spec: [Next()] of the announce queue, "pop head of
    ready into pending-announce; ok=false if empty". *)
Definition spec_aq_Next (q : spec_announceQueue)
  : spec_announceQueue * option dispatcher :=
  match ready q with
  | [] => (q, None)
  | d :: rest => ({| ready := rest; announcing := announcing q ++ [d] |}, Some d)
  end.

(** Modelled from the spec: [Ready(d)] of the announce queue, "return d from
    pending-announce to tail of ready (idempotent if already ready)". *)
Definition spec_aq_Ready (d : dispatcher) (q : spec_announceQueue)
  : spec_announceQueue :=
  if bool_decide (d ∈ announcing q)
  then {| ready := ready q ++ [d]; announcing := without d (announcing q) |}
  else q.

(** Modelled from the spec: [Done(d)] of the announce queue, "remove d from
    all internal state"; [Eject(d)], "unconditional removal", is the same
    function. *)
Definition spec_aq_Done (d : dispatcher) (q : spec_announceQueue)
  : spec_announceQueue :=
  {| ready := without d (ready q); announcing := without d (announcing q) |}.

#[export] Instance spec_AnnounceQueueOps : AnnounceQueueOps := {|
  announceQueueT := spec_announceQueue;
  aq_Add := spec_aq_Add;
  aq_Next := spec_aq_Next;
  aq_Ready := spec_aq_Ready;
  aq_Done := spec_aq_Done;
  aq_Eject := spec_aq_Done;
|}.

(** Modelled from the spec: [torlib.NewPeerID] (package [torlib] is not among
    the sources), the decoding of a peer id out of an announce response,
    which can fail ("skip on decode error").  A peer id is written as 40
    hexadecimal digits. *)
Definition spec_NewPeerID (s : string) : PeerID + error :=
  if decide (String.length s = 40)
  then
    match HexadecimalString.NilEmpty.uint_of_string s with
    | Some u => inl (N.of_hex_uint u)
    | None => inr (errOther "invalid peer id")
    end
  else inr (errOther "invalid peer id length").

#[export] Instance spec_Runtime : Runtime := {|
  NewPeerID := spec_NewPeerID;
  range_controls := map_to_list;
  range_controls_perm := λ m, reflexivity (map_to_list m);
|}.

(** Modelled from the spec: the dispatcher the factory builds for a torrent
    (the dispatcher is not among the sources): created now, with no
    connection and no piece exchanged yet. *)
Definition spec_newDispatcher (t : Torrent) (s : Scheduler)
  : dispatcher * dispatcherObs :=
  ({| d_id := size (torrentControls s); d_Torrent := t;
      d_CreatedAt := clock_Now s |},
   {| Empty := true; LastConnRemoved := 0%Z;
      LastGoodPieceReceived := λ _, 0%Z; LastPieceSent := λ _, 0%Z |}).

(** Modelled from the spec: [addOutgoingConn] (scheduler.go is not among the
    sources): "the Dispatcher must already exist"; the connection is
    registered with the dispatcher and [AddActive] moves it from pending to
    active. *)
Definition spec_addOutgoingConn (c : Conn) (bitfield : list bool)
    (info : TorrentInfo) (s : Scheduler) : Scheduler * option error :=
  match torrentControls s !! ti_InfoHash info with
  | None => (s, Some (errOther "torrent not found"))
  | Some ctrl =>
      match spec_AddActive c (connState s) with
      | (cs, Some err) => (set_connState cs s, Some err)
      | (cs, None) =>
          let obs := {| Empty := false;
                        LastConnRemoved := LastConnRemoved (Observed ctrl);
                        LastGoodPieceReceived :=
                          LastGoodPieceReceived (Observed ctrl);
                        LastPieceSent := LastPieceSent (Observed ctrl) |} in
          (set_torrentControls
             (<[ti_InfoHash info := set_Observed obs ctrl]> (torrentControls s))
             (set_connState cs s),
           None)
      end
  end.

(** Modelled from the spec: [addIncomingConn] (scheduler.go is not among the
    sources): "fetch-or-create the TorrentControl, register the Conn with its
    Dispatcher (providing the remote bitfield), and ConnState.AddActive(c)".
    A control created here starts incomplete. *)
Definition spec_addIncomingConn (c : Conn) (bitfield : list bool)
    (info : TorrentInfo) (s : Scheduler) : Scheduler * option error :=
  let s1 :=
    match torrentControls s !! ti_InfoHash info with
    | Some _ => s
    | None =>
        let t := {| t_Name := ti_Name info; t_InfoHash := ti_InfoHash info |} in
        let '(d, obs) := spec_newDispatcher t s in
        set_torrentControls
          (<[ti_InfoHash info :=
               {| Dispatcher := d; Complete := false; Errors := [];
                  Observed := obs |}]> (torrentControls s))
          (set_announceQueue (aq_Add d (announceQueue s)) s)
    end in
  spec_addOutgoingConn c bitfield info s1.

#[export] Instance spec_SchedulerHelpers : SchedulerHelpers := {|
  newDispatcher := spec_newDispatcher;
  initComplete := λ _, false;
  addIncomingConn := spec_addIncomingConn;
  addOutgoingConn := spec_addOutgoingConn;
|}.

(** ** A small scheduler to run the events on *)

Definition peer_self : PeerID := 1%N.
Definition peer_P1 : PeerID := 17%N.
Definition peer_P2 : PeerID := 18%N.
Definition peer_P3 : PeerID := 19%N.

Definition hex_self : string := "0000000000000000000000000000000000000001".
Definition hex_P1 : string := "0000000000000000000000000000000000000011".
Definition hex_P2 : string := "0000000000000000000000000000000000000012".
Definition hex_P3 : string := "0000000000000000000000000000000000000013".

Definition hash_T : InfoHash := 7%N.
Definition torrent_T : Torrent := {| t_Name := "T"; t_InfoHash := hash_T |}.

Definition config0 : Config :=
  {| IdleConnTTL := 100; ConnTTL := 1000; IdleSeederTTL := 500 |}.

(** No torrent, no connection; at most one connection per torrent. *)
Definition sched0 : Scheduler :=
  {| pctx_PeerID := peer_self;
     config := config0;
     clock_Now := 10000%Z;
     connState :=
       {| MaxGlobalEgress := 10; MaxConnsPerTorrent := 1;
          BlacklistCooldown := 30%Z;
          pending := ∅; active := []; blacklist := ∅ |};
     announceQueue := {| ready := []; announcing := [] |};
     torrentControls := ∅ |}.

(** The dispatcher [initTorrentControl] builds for [torrent_T] in [sched0]. *)
Definition dispatcher_T : dispatcher :=
  {| d_id := 0; d_Torrent := torrent_T; d_CreatedAt := 10000%Z |}.

Definition peerInfo (hex : string) : PeerInfo :=
  {| pi_PeerID := hex; pi_IP := "10.0.0.1"; pi_Port := 6881%Z |}.

(** ** Properties of the events *)

Section EventProps.

Context `{!ConnStateOps, !AnnounceQueueOps, !Runtime, !SchedulerHelpers}.

(** *** announceResponseEvent: the candidate loop *)

(** The iteration over the peers of an announce response, case by case as the
    specification words it.  [announceIter self infoHash now d peers cs cs' ts]:
    started on [peers] with connection state [cs], the iteration ends with
    [cs'] and has spawned the outbound handshakes [ts], in that order. *)
Inductive announceIter (self : PeerID) (infoHash : InfoHash) (now : Time)
    (d : dispatcher)
  : list PeerInfo → connStateT → connStateT → list task → Prop :=
  | iter_end cs :
      announceIter self infoHash now d [] cs cs []
  | iter_skip_undecodable p peers cs cs' ts err :
      NewPeerID (pi_PeerID p) = inr err →
      announceIter self infoHash now d peers cs cs' ts →
      announceIter self infoHash now d (p :: peers) cs cs' ts
  | iter_skip_self p peers cs cs' ts :
      NewPeerID (pi_PeerID p) = inl self →
      announceIter self infoHash now d peers cs cs' ts →
      announceIter self infoHash now d (p :: peers) cs cs' ts
  | iter_break_at_capacity p peers pid cs cs1 :
      NewPeerID (pi_PeerID p) = inl pid → pid ≠ self →
      AddPending pid infoHash now cs = (cs1, Some errTorrentAtCapacity) →
      announceIter self infoHash now d (p :: peers) cs cs1 []
  | iter_continue_on_error p peers pid cs cs1 cs' ts err :
      NewPeerID (pi_PeerID p) = inl pid → pid ≠ self →
      AddPending pid infoHash now cs = (cs1, Some err) →
      err ≠ errTorrentAtCapacity →
      announceIter self infoHash now d peers cs1 cs' ts →
      announceIter self infoHash now d (p :: peers) cs cs' ts
  | iter_spawn p peers pid cs cs1 cs' ts :
      NewPeerID (pi_PeerID p) = inl pid → pid ≠ self →
      AddPending pid infoHash now cs = (cs1, None) →
      announceIter self infoHash now d peers cs1 cs' ts →
      announceIter self infoHash now d (p :: peers) cs cs'
        (initializeOutgoing pid p infoHash d :: ts).

(** Two results of the same call are the same result. *)
Ltac same_call :=
  simplify_eq;
  repeat match goal with
         | A : ?call = _, B : ?call = _ |- _ => rewrite A in B; simplify_eq
         end.

(** The iteration has one outcome. *)
Lemma announceIter_det self infoHash now d peers cs cs1 ts1 cs2 ts2 :
  announceIter self infoHash now d peers cs cs1 ts1 →
  announceIter self infoHash now d peers cs cs2 ts2 →
  cs1 = cs2 ∧ ts1 = ts2.
Proof.
  intros Hfst; revert cs2 ts2.
  induction Hfst
    as [cs
       |p peers cs cs' ts err Hdec _ IH
       |p peers cs cs' ts Hdec _ IH
       |p peers pid cs cs1 Hdec Hne Hadd
       |p peers pid cs cs1 cs' ts err Hdec Hne Hadd Herr _ IH
       |p peers pid cs cs1 cs' ts Hdec Hne Hadd _ IH];
    intros cs2 ts2 Hsnd; inversion Hsnd; same_call; eauto.
  match goal with
  | Hrest : announceIter _ _ _ _ peers _ _ _ |- _ =>
      destruct (IH _ _ Hrest) as [-> ->]
  end.
  done.
Qed.

(** The loop of the code, entered at index [length done_] with as many
    iterations left as peers remain, runs the iteration on the remaining
    peers. *)
Lemma connectPeers_iter self infoHash now d (todo done_ : list PeerInfo) cs :
  ∃ cs' ts,
    connectPeers (length todo) (length done_) self infoHash now d
      (done_ ++ todo) cs = (cs', map EGo ts)
    ∧ announceIter self infoHash now d todo cs cs' ts.
Proof.
  revert done_ cs. induction todo as [|p todo IH]; intros done_ cs.
  { exists cs, []. split; [done | constructor]. }
  assert (Hnext : ∀ cs0, ∃ cs' ts,
    connectPeers (length todo) (S (length done_)) self infoHash now d
      (done_ ++ p :: todo) cs0 = (cs', map EGo ts)
    ∧ announceIter self infoHash now d todo cs0 cs' ts).
  { intros cs0. destruct (IH (done_ ++ [p]) cs0) as (cs' & ts & Hrun & Hiter).
    exists cs', ts. split; [|done].
    rewrite <- Hrun, length_app, <- app_assoc. simpl.
    by rewrite Nat.add_1_r. }
  simpl. rewrite list_lookup_middle by done.
  destruct (NewPeerID (pi_PeerID p)) as [pid|err] eqn:Hpid.
  - destruct (decide (pid = self)) as [->|Hself].
    + destruct (Hnext cs) as (cs' & ts & -> & Hiter).
      exists cs', ts. split; [done|]. by apply iter_skip_self.
    + destruct (AddPending pid infoHash now cs) as [cs1 [err|]] eqn:Hadd.
      * destruct (decide (err = errTorrentAtCapacity)) as [->|Herr].
        -- exists cs1, []. split; [done|].
           by eapply iter_break_at_capacity.
        -- destruct (Hnext cs1) as (cs' & ts & -> & Hiter).
           exists cs', ts. split; [done|].
           by eapply iter_continue_on_error.
      * destruct (Hnext cs1) as (cs' & ts & -> & Hiter).
        exists cs', (initializeOutgoing pid p infoHash d :: ts).
        split; [done|]. by eapply iter_spawn.
  - destruct (Hnext cs) as (cs' & ts & -> & Hiter).
    exists cs', ts. split; [done|]. by eapply iter_skip_undecodable.
Qed.

(** C1. For an announce response whose infohash has a control that is not
    complete, [Apply] marks the dispatcher ready and then runs the iteration
    [announceIter] over the peers in announce order: a peer whose id does not
    decode or is this peer's own is skipped, [AddPending] is tried on every
    other, [errTorrentAtCapacity] ends the iteration, any other error moves
    on to the next peer, and each peer added to pending has its outbound
    handshake spawned.  The iteration has exactly one outcome, and that
    outcome is the connection state and the spawned tasks [Apply] returns. *)
Theorem announceResponse_iterates_peers (infoHash : InfoHash)
    (peers : list PeerInfo) (s : Scheduler) (ctrl : torrentControl) :
  torrentControls s !! infoHash = Some ctrl →
  Complete ctrl = false →
  (∃ cs ts, announceIter (pctx_PeerID s) infoHash (clock_Now s)
              (Dispatcher ctrl) peers (connState s) cs ts)
  ∧ ∀ cs ts,
      announceIter (pctx_PeerID s) infoHash (clock_Now s)
        (Dispatcher ctrl) peers (connState s) cs ts →
      Apply (announceResponseEvent infoHash peers) s
      = (set_connState cs
           (set_announceQueue
              (aq_Ready (Dispatcher ctrl) (announceQueue s)) s),
         map EGo ts).
Proof.
  intros Hctrl Hincomplete.
  destruct (connectPeers_iter (pctx_PeerID s) infoHash (clock_Now s)
              (Dispatcher ctrl) peers [] (connState s))
    as (cs' & ts' & Hrun & Hiter).
  split; [by exists cs', ts'|].
  intros cs ts Hiter'.
  destruct (announceIter_det _ _ _ _ _ _ _ _ _ _ Hiter Hiter') as [<- <-].
  simpl in *. unfold Apply_announceResponse.
  rewrite Hctrl, Hincomplete. simpl. by rewrite Hrun.
Qed.

(** *** announceResponseEvent on a complete torrent *)








(** Deleting idle seeders leaves every other control as it was. *)
Lemma foldl_delete_lookup cfg now (entries : list (InfoHash * torrentControl))
    (acc : gmap InfoHash torrentControl) (h : InfoHash) :
  foldl (λ acc entry,
           if idleSeeder cfg now entry.2 then delete entry.1 acc else acc)
        acc entries !! h
  = if existsb (λ entry, bool_decide (entry.1 = h) && idleSeeder cfg now entry.2)
         entries
    then None else acc !! h.
Proof.
  revert acc. induction entries as [|[k v] entries IH]; intros acc; [done|].
  simpl. rewrite IH. destruct (existsb _ entries).
  { by rewrite orb_true_r. }
  rewrite orb_false_r. destruct (idleSeeder cfg now v); simpl.
  - rewrite andb_true_r. case_bool_decide as Hk.
    + subst k. by rewrite lookup_delete_eq.
    + by rewrite lookup_delete_ne.
  - by rewrite andb_false_r.
Qed.

Lemma removeIdleSeeders_lookup cfg now (m : gmap InfoHash torrentControl)
    (h : InfoHash) :
  removeIdleSeeders cfg now m !! h
  = match m !! h with
    | Some ctrl => if idleSeeder cfg now ctrl then None else Some ctrl
    | None => None
    end.
Proof.
  unfold removeIdleSeeders. rewrite foldl_delete_lookup.
  destruct (existsb _ _) eqn:Hex.
  - apply existsb_exists in Hex as ([k v] & Hin & Hkv). simpl in Hkv.
    apply andb_true_iff in Hkv as [Hk Hidle].
    apply bool_decide_eq_true in Hk. subst k.
    apply list_elem_of_In in Hin. rewrite range_controls_perm in Hin.
    apply elem_of_map_to_list in Hin. by rewrite Hin, Hidle.
  - destruct (m !! h) as [ctrl|] eqn:Hctrl; [|done].
    destruct (idleSeeder cfg now ctrl) eqn:Hidle; [|done].
    assert (existsb (λ entry, bool_decide (entry.1 = h)
                              && idleSeeder cfg now entry.2)
              (range_controls m) = true) as Hyes; [|congruence].
    apply existsb_exists. exists (h, ctrl). split.
    + apply list_elem_of_In. rewrite range_controls_perm.
      by apply elem_of_map_to_list.
    + simpl. rewrite Hidle. by rewrite bool_decide_eq_true_2.
Qed.

(** A cancellation leaves every control as it was, but for one it deletes. *)
Lemma cancelScan_lookup (name : string)
    (entries : list (InfoHash * torrentControl)) (s : Scheduler) (h : InfoHash) :
  torrentControls (cancelScan name entries s).1 !! h = None
  ∨ torrentControls (cancelScan name entries s).1 !! h = torrentControls s !! h.
Proof.
  induction entries as [|[k ctrl] entries IH]; simpl; [by right|].
  destruct (decide (t_Name (d_Torrent (Dispatcher ctrl)) = name)); [|done].
  simpl. destruct (decide (t_InfoHash (d_Torrent (Dispatcher ctrl)) = h)) as [<-|].
  - left. apply lookup_delete_eq.
  - right. by apply lookup_delete_ne.
Qed.




(** *** preemptionTickEvent: connections *)

(** [MostRecent] of two and of three instants is their [max]. *)
Lemma MostRecent_2 (a b : Time) : MostRecent [a; b] = Z.max a b.
Proof. reflexivity. Qed.

Lemma MostRecent_3 (a b c : Time) :
  MostRecent [a; b; c] = Z.max a (Z.max b c).
Proof. unfold MostRecent. simpl. lia. Qed.

(** The connection [c] made no progress for longer than [IdleConnTTL], or is
    older than [ConnTTL]; [obs] is what the dispatcher of its torrent
    answers, and a difference of instants is Go's [Sub]. *)
Definition overdue (cfg : Config) (now : Time) (obs : dispatcherObs) (c : Conn)
  : Prop :=
  (Time_Sub now (Z.max (c_CreatedAt c)
                   (Z.max (LastGoodPieceReceived obs (c_PeerID c))
                          (LastPieceSent obs (c_PeerID c))))
   > IdleConnTTL cfg)%Z
  ∨ (Time_Sub now (c_CreatedAt c) > ConnTTL cfg)%Z.

(** The connections an [Apply] closed. *)
Definition closedBy (effs : list effect) (c : Conn) : Prop :=
  ECloseConn c ∈ effs.

Lemma preemptConn_closes (s : Scheduler) (c c' : Conn) :
  ECloseConn c' ∈ preemptConn s c
  ↔ c' = c
    ∧ match torrentControls s !! c_InfoHash c with
      | None => True
      | Some ctrl => overdue (config s) (clock_Now s) (Observed ctrl) c
      end.
Proof.
  unfold preemptConn, overdue.
  destruct (torrentControls s !! c_InfoHash c) as [ctrl|].
  - rewrite MostRecent_3. repeat case_bool_decide; rewrite ?list_elem_of_singleton, ?elem_of_nil;
      split; try (intros [= ->]); try (intros [-> ?]); intuition (try lia; auto).
  - rewrite list_elem_of_singleton. split; [intros [= ->]|intros [-> _]]; done.
Qed.

Lemma preemptConn_only_closes (s : Scheduler) (c : Conn) (e : effect) :
  e ∈ preemptConn s c → e = ECloseConn c.
Proof.
  unfold preemptConn. destruct (torrentControls s !! c_InfoHash c).
  - repeat case_bool_decide;
      rewrite ?list_elem_of_singleton, ?elem_of_nil; done.
  - by rewrite list_elem_of_singleton.
Qed.

(** C6, as the code has it. The connections a preemption tick closes are
    exactly the active connections whose infohash has no control (closed as
    an invariant violation, whatever their age), and those whose control's
    dispatcher shows them idle for more than [IdleConnTTL] or which are older
    than [ConnTTL]; no other connection is closed. *)
Theorem preemptionTick_closes (s : Scheduler) (c : Conn) :
  closedBy (Apply preemptionTickEvent s).2 c
  ↔ c ∈ ActiveConns (connState s)
    ∧ (torrentControls s !! c_InfoHash c = None
       ∨ ∃ ctrl, torrentControls s !! c_InfoHash c = Some ctrl
                 ∧ overdue (config s) (clock_Now s) (Observed ctrl) c).
Proof.
  unfold closedBy. simpl.
  rewrite list_elem_of_In, in_flat_map. split.
  - intros (c0 & Hactive & Hclosed).
    apply list_elem_of_In in Hactive, Hclosed.
    apply preemptConn_closes in Hclosed as [-> Hwhy]. split; [done|].
    destruct (torrentControls s !! c_InfoHash c0) as [ctrl|]; eauto.
  - intros [Hactive Hwhy]. exists c. split; [by apply list_elem_of_In|].
    apply list_elem_of_In, preemptConn_closes. split; [done|].
    destruct Hwhy as [-> | (ctrl & -> & Hover)]; done.
Qed.

(** A preemption tick does nothing but close connections. *)
Lemma preemptionTick_only_closes (s : Scheduler) (e : effect) :
  e ∈ (Apply preemptionTickEvent s).2 →
  ∃ c, e = ECloseConn c ∧ c ∈ ActiveConns (connState s).
Proof.
  simpl. rewrite list_elem_of_In, in_flat_map.
  intros (c & Hactive & Hin). exists c.
  apply list_elem_of_In in Hactive, Hin.
  by rewrite (preemptConn_only_closes s c e Hin).
Qed.

(** *** preemptionTickEvent: idle seeders *)

(** C7. A preemption tick removes a control from [torrentControls] if and
    only if the control is complete, its dispatcher is empty, and the time
    since the later of the dispatcher's creation and its last connection
    removal is at least [IdleSeederTTL] (a wait of exactly [IdleSeederTTL] is
    enough); a control that is not removed stays as it was. *)
Theorem preemptionTick_removes_idle_seeder (s : Scheduler) (h : InfoHash)
    (ctrl : torrentControl) :
  torrentControls s !! h = Some ctrl →
  (torrentControls (Apply preemptionTickEvent s).1 !! h = None
   ↔ Complete ctrl = true
     ∧ Empty (Observed ctrl) = true
     ∧ (Time_Sub (clock_Now s)
          (Z.max (d_CreatedAt (Dispatcher ctrl))
                 (LastConnRemoved (Observed ctrl)))
        >= IdleSeederTTL (config s))%Z)
  ∧ (torrentControls (Apply preemptionTickEvent s).1 !! h = None
     ∨ torrentControls (Apply preemptionTickEvent s).1 !! h = Some ctrl).
Proof.
  intros Hctrl. simpl. rewrite removeIdleSeeders_lookup, Hctrl.
  unfold idleSeeder. rewrite MostRecent_2.
  destruct (Complete ctrl), (Empty (Observed ctrl)); simpl;
    try case_bool_decide; split; auto; split; intuition (try done).
Qed.

(** The tick creates no control. *)
Lemma preemptionTick_absent (s : Scheduler) (h : InfoHash) :
  torrentControls s !! h = None →
  torrentControls (Apply preemptionTickEvent s).1 !! h = None.
Proof. intros Hnone. simpl. by rewrite removeIdleSeeders_lookup, Hnone. Qed.

(** *** cancelTorrentEvent *)

(** The entry is the control of a torrent called [name]. *)
Definition namedAs (name : string) (entry : InfoHash * torrentControl) : Prop :=
  t_Name (d_Torrent (Dispatcher entry.2)) = name.

#[global] Instance namedAs_dec name entry : Decision (namedAs name entry).
Proof. unfold namedAs. apply _. Defined.

(** Every control is stored under the infohash of its dispatcher's torrent. *)
Definition controls_wf (m : gmap InfoHash torrentControl) : Prop :=
  map_Forall (λ h ctrl, t_InfoHash (d_Torrent (Dispatcher ctrl)) = h) m.

Lemma cancelScan_find (name : string)
    (entries : list (InfoHash * torrentControl)) (s : Scheduler) :
  cancelScan name entries s
  = match list_find (namedAs name) entries with
    | None => (s, [])
    | Some (_, (_, ctrl)) => cancelControl ctrl s
    end.
Proof.
  induction entries as [|[h ctrl] entries IH]; simpl; [done|].
  unfold namedAs at 1. simpl.
  destruct (decide (t_Name (d_Torrent (Dispatcher ctrl)) = name)); [done|].
  rewrite IH. by destruct (list_find (namedAs name) entries) as [[? [? ?]]|].
Qed.

(** C8. A cancellation acts on the first control, in the order the [range]
    visits them, whose torrent is called [name], and on no other: it tears
    the dispatcher down, ejects it from the announce queue, sends
    [ErrTorrentCancelled] to every channel of [ctrl.Errors], deletes the
    control from the map and produces the torrent-cancelled network event.
    When no control is called [name], the scheduler is unchanged and nothing
    happens. *)
Theorem cancelTorrent_first_match (name : string) (s : Scheduler) :
  controls_wf (torrentControls s) →
  match list_find (namedAs name) (range_controls (torrentControls s)) with
  | None =>
      (∀ h ctrl, torrentControls s !! h = Some ctrl →
                 t_Name (d_Torrent (Dispatcher ctrl)) ≠ name)
      ∧ Apply (cancelTorrentEvent name) s = (s, [])
  | Some (_, (h, ctrl)) =>
      torrentControls s !! h = Some ctrl
      ∧ t_Name (d_Torrent (Dispatcher ctrl)) = name
      ∧ Apply (cancelTorrentEvent name) s
        = (set_torrentControls (delete h (torrentControls s))
             (set_announceQueue
                (aq_Eject (Dispatcher ctrl) (announceQueue s)) s),
           ETearDown (Dispatcher ctrl)
             :: map (λ errc, ESend errc (Some ErrTorrentCancelled))
                    (Errors ctrl)
             ++ [EProduce (TorrentCancelledEvent h (pctx_PeerID s))])
  end.
Proof.
  intros Hwf. simpl. unfold Apply_cancelTorrent. rewrite cancelScan_find.
  destruct (list_find (namedAs name) (range_controls (torrentControls s)))
    as [[i [h ctrl]]|] eqn:Hfind.
  - apply list_find_Some in Hfind as (Hi & Hname & _).
    assert (torrentControls s !! h = Some ctrl) as Hctrl.
    { apply elem_of_map_to_list. rewrite <- range_controls_perm.
      by eapply list_elem_of_lookup_2. }
    split; [done|]. split; [done|].
    unfold cancelControl. by rewrite (Hwf h ctrl Hctrl).
  - split; [|done]. intros h ctrl Hctrl Hname.
    apply list_find_None in Hfind.
    rewrite Forall_forall in Hfind. apply (Hfind (h, ctrl)); [|done].
    rewrite range_controls_perm. by apply elem_of_map_to_list.
Qed.

(** Whatever the name, a cancellation leaves all controls but at most one
    where they are. *)
Lemma cancelTorrent_at_most_one (name : string) (s : Scheduler) :
  ∃ h, ∀ h', h' ≠ h →
    torrentControls (Apply (cancelTorrentEvent name) s).1 !! h'
    = torrentControls s !! h'.
Proof.
  simpl. unfold Apply_cancelTorrent. rewrite cancelScan_find.
  destruct (list_find _ _) as [[i [h ctrl]]|].
  - exists (t_InfoHash (d_Torrent (Dispatcher ctrl))). intros h' Hne. simpl.
    by rewrite lookup_delete_ne.
  - by exists 0%N.
Qed.

(** [controls_wf] is an invariant of the loop: the events of this file keep
    it, as long as the dispatcher factory builds a dispatcher for the torrent
    it is given and [addIncomingConn] and [addOutgoingConn] keep it. *)
Definition helperWf (st : step) (s : Scheduler) : Prop :=
  match st with
  | Event (newTorrentEvent torrent _) =>
      t_InfoHash (d_Torrent (newDispatcher torrent s).1) = t_InfoHash torrent
  | Event (incomingConnEvent c bitfield info) =>
      controls_wf (torrentControls (addIncomingConn c bitfield info s).1)
  | Event (outgoingConnEvent c bitfield info) =>
      controls_wf (torrentControls (addOutgoingConn c bitfield info s).1)
  | _ => True
  end.

Lemma controls_wf_shrink (m m' : gmap InfoHash torrentControl) :
  (∀ h ctrl, m' !! h = Some ctrl → m !! h = Some ctrl) →
  controls_wf m → controls_wf m'.
Proof. intros Hsub Hwf h ctrl Hctrl. by apply Hwf, Hsub. Qed.

Lemma do_step_controls_wf (st : step) (s : Scheduler) :
  helperWf st s →
  controls_wf (torrentControls s) →
  controls_wf (torrentControls (do_step st s).1).
Proof.
  intros Hhelper Hwf.
  destruct st as [e|dt|h' obs]; simpl; [|done|].
  - destruct e; simpl in *; try done.
    + unfold Apply_closedConn. by destruct (Blacklist _ _ _ _).
    + unfold Apply_failedHandshake. by destruct (Blacklist _ _ _ _).
    + unfold Apply_incomingHandshake. by destruct (AddPending _ _ _ _) as [? []].
    + unfold Apply_incomingConn. by destruct (addIncomingConn _ _ _ _) as [? []].
    + unfold Apply_outgoingConn. by destruct (addOutgoingConn _ _ _ _) as [? []].
    + unfold Apply_announceTick. by destruct (aq_Next _) as [? []].
    + unfold Apply_announceResponse.
      destruct (torrentControls s !! infoHash) as [ctrl|]; [|done].
      destruct (Complete ctrl); [done|]. simpl.
      by destruct (connectPeers _ _ _ _ _ _ _ _).
    + unfold Apply_newTorrent.
      destruct (torrentControls s !! t_InfoHash torrent) as [ctrl|] eqn:Hctrl.
      * destruct (Complete ctrl); [done|]. simpl.
        apply map_Forall_insert_2; [|done]. by apply (Hwf _ _ Hctrl).
      * unfold initTorrentControl.
        destruct (newDispatcher torrent s) as [d obs]. simpl in *.
        destruct (initComplete torrent); simpl.
        -- by apply map_Forall_insert_2.
        -- by repeat apply map_Forall_insert_2.
    + unfold Apply_completedDispatcher. simpl.
      destruct (torrentControls s !! t_InfoHash (d_Torrent d)) as [ctrl|] eqn:Hctrl;
        [|done].
      simpl. apply map_Forall_insert_2; [|done]. by apply (Hwf _ _ Hctrl).
    + apply (controls_wf_shrink (torrentControls s)); [|done].
      intros h ctrl. rewrite removeIdleSeeders_lookup.
      destruct (torrentControls s !! h) as [ctrl'|]; [|done].
      by destruct (idleSeeder _ _ ctrl').
    + apply (controls_wf_shrink (torrentControls s)); [|done].
      intros h ctrl Hctrl. unfold Apply_cancelTorrent in Hctrl.
      destruct (cancelScan_lookup name (range_controls (torrentControls s)) s h)
        as [Hgone | <-]; [congruence | done].
  - intros h ctrl. rewrite lookup_alter.
    destruct (decide (h' = h)) as [->|]; [|apply Hwf].
    destruct (torrentControls s !! h) as [ctrl'|] eqn:Hctrl'; [|done].
    simpl. intros [= <-]. by apply (Hwf _ _ Hctrl').
Qed.

(** *** closedConnEvent, on any connection state *)

(** [closedConnEvent.Apply] calls [DeleteActive(c)] and then
    [Blacklist(c.PeerID(), c.InfoHash())], on every connection alike; an
    error of [Blacklist] is only logged. *)
Lemma closedConn_calls (c : Conn) (s : Scheduler) :
  Apply (closedConnEvent c) s
  = (set_connState
       (Blacklist (c_PeerID c) (c_InfoHash c) (clock_Now s)
          (DeleteActive c (connState s))).1 s,
     []).
Proof.
  simpl. unfold Apply_closedConn. by destruct (Blacklist _ _ _ _).
Qed.

(** *** incomingHandshakeEvent *)

(** The events the task of an incoming handshake sends to the loop. *)
Definition sentEvents (acts : list taskAction) : list event :=
  omap (λ a, match a with TSend e => Some e | TClose _ => None end) acts.

(** When the torrent lookup fails, the task closes the pending connection and
    sends nothing: no [failedHandshakeEvent] follows. *)
Lemma establishIncoming_lookup_failure
    (Stat : string → TorrentInfo + error)
    (Establish : PendingConn → TorrentInfo → Conn + error)
    (pc : PendingConn) (err : error) :
  Stat (pc_Name pc) = inr err →
  run_establishIncoming Stat Establish pc = [TClose pc]
  ∧ sentEvents (run_establishIncoming Stat Establish pc) = [].
Proof. intros Hstat. unfold run_establishIncoming. by rewrite Hstat. Qed.

(** When the lookup succeeds, the task ends in [incomingConnEvent] or in
    [failedHandshakeEvent] for the pending connection's peer and infohash. *)
Lemma establishIncoming_after_lookup
    (Stat : string → TorrentInfo + error)
    (Establish : PendingConn → TorrentInfo → Conn + error)
    (pc : PendingConn) (info : TorrentInfo) :
  Stat (pc_Name pc) = inl info →
  (∃ c, run_establishIncoming Stat Establish pc
        = [TSend (incomingConnEvent c (pc_Bitfield pc) info)])
  ∨ run_establishIncoming Stat Establish pc
    = [TClose pc; TSend (failedHandshakeEvent (pc_PeerID pc) (pc_InfoHash pc))].
Proof.
  intros Hstat. unfold run_establishIncoming. rewrite Hstat.
  destruct (Establish pc info) as [c|err]; eauto.
Qed.

(** *** Subscribers of a torrent: completion, then cancellation *)

(** The values an [Apply] sent on the channel [ch], in order. *)
Definition valuesSentOn (ch : chan) (effs : list effect) : list (option error) :=
  omap (λ e, match e with
             | ESend errc v => if decide (errc = ch) then Some v else None
             | _ => None
             end) effs.

(** Completion signals every subscriber with [nil] and sets [Complete]; the
    channels stay in [ctrl.Errors]. *)
Lemma completedDispatcher_signals (d : dispatcher) (s : Scheduler)
    (ctrl : torrentControl) :
  torrentControls s !! t_InfoHash (d_Torrent d) = Some ctrl →
  Apply (completedDispatcherEvent d) s
  = (set_torrentControls
       (<[t_InfoHash (d_Torrent d) := set_Complete true ctrl]>
          (torrentControls s))
       (set_announceQueue (aq_Done d (announceQueue s)) s),
     map (λ errc, ESend errc None) (Errors ctrl)
       ++ [EProduce (TorrentCompleteEvent (t_InfoHash (d_Torrent d))
                       (pctx_PeerID s))]).
Proof.
  intros Hctrl. simpl. unfold Apply_completedDispatcher. simpl.
  by rewrite Hctrl.
Qed.

(** A subscriber of a torrent that completes and is cancelled afterwards is
    sent [nil] by the completion and [ErrTorrentCancelled] by the
    cancellation: [completedDispatcherEvent.Apply] does not empty
    [ctrl.Errors], and [cancelTorrentEvent.Apply] does not look at
    [ctrl.Complete]. *)
Lemma complete_then_cancel_sends_twice (d : dispatcher) (s : Scheduler)
    (ctrl : torrentControl) (ch : chan) :
  torrentControls s !! t_InfoHash (d_Torrent d) = Some ctrl →
  ch ∈ Errors ctrl →
  (∀ h' ctrl', torrentControls s !! h' = Some ctrl' →
     t_Name (d_Torrent (Dispatcher ctrl')) = t_Name (d_Torrent (Dispatcher ctrl)) →
     h' = t_InfoHash (d_Torrent d)) →
  ESend ch None ∈ (Apply (completedDispatcherEvent d) s).2
  ∧ ESend ch (Some ErrTorrentCancelled)
    ∈ (Apply (cancelTorrentEvent (t_Name (d_Torrent (Dispatcher ctrl))))
         (Apply (completedDispatcherEvent d) s).1).2.
Proof.
  intros Hctrl Hch Huniq.
  rewrite (completedDispatcher_signals d s ctrl Hctrl). split.
  { apply elem_of_app. left. apply list_elem_of_fmap. by exists ch. }
  cbn [fst snd Apply]. unfold Apply_cancelTorrent. rewrite cancelScan_find.
  set (h := t_InfoHash (d_Torrent d)) in *.
  set (name := t_Name (d_Torrent (Dispatcher ctrl))) in *.
  set (s1 := set_torrentControls _ _).
  assert (Hs1 : torrentControls s1 = <[h := set_Complete true ctrl]> (torrentControls s))
    by done.
  destruct (list_find (namedAs name) (range_controls (torrentControls s1)))
    as [[i [h' ctrl']]|] eqn:Hfind.
  - apply list_find_Some in Hfind as (Hi & Hname & _).
    assert (torrentControls s1 !! h' = Some ctrl') as Hctrl'.
    { apply elem_of_map_to_list. rewrite <- range_controls_perm.
      by eapply list_elem_of_lookup_2. }
    rewrite Hs1 in Hctrl'.
    assert (ctrl' = set_Complete true ctrl) as ->.
    { destruct (decide (h = h')) as [<-|Hne].
      - rewrite lookup_insert_eq in Hctrl'. congruence.
      - rewrite lookup_insert_ne in Hctrl' by done.
        destruct Hne. symmetry. by apply (Huniq h' ctrl'). }
    unfold cancelControl. cbn [snd Errors set_Complete Dispatcher].
    apply list_elem_of_further, elem_of_app. left.
    apply list_elem_of_fmap. by exists ch.
  - apply list_find_None in Hfind. rewrite Forall_forall in Hfind.
    destruct (Hfind (h, set_Complete true ctrl)); [|done].
    rewrite range_controls_perm. apply elem_of_map_to_list.
    by rewrite Hs1, lookup_insert_eq.
Qed.

End EventProps.

(** ** The events on the modelled collaborators *)

#[global] Instance controls_wf_dec m : Decision (controls_wf m).
Proof. unfold controls_wf. apply _. Defined.

(** C4. With the connection state of the specification, applying a
    [closedConnEvent] removes the connection from the active connections
    (and no other), and then enters its (PeerID, InfoHash) pair in the
    blacklist with expiry the current time plus [BlacklistCooldown]; this is
    done for every connection, whatever the reason it was closed for, and
    nothing else happens. *)
Theorem closedConn_blacklists (c : Conn) (s : Scheduler) :
  ActiveConns (connState (Apply (closedConnEvent c) s).1)
  = filter (λ c', c' ≠ c) (ActiveConns (connState s))
  ∧ (c ∉ ActiveConns (connState (Apply (closedConnEvent c) s).1))
  ∧ blacklist (connState (Apply (closedConnEvent c) s).1) !! connKey c
    = Some (Time_Add (clock_Now s) (BlacklistCooldown (connState s)))
  ∧ pending (connState (Apply (closedConnEvent c) s).1) = pending (connState s)
  ∧ torrentControls (Apply (closedConnEvent c) s).1 = torrentControls s
  ∧ (Apply (closedConnEvent c) s).2 = [].
Proof.
  rewrite closedConn_calls. simpl.
  split; [done|]. split.
  { rewrite list_elem_of_filter. by intros [? _]. }
  split; [|done]. by rewrite lookup_insert_eq.
Qed.

(** *** Runs on the small scheduler *)

(** [torrent_T] has been added, with subscriber channel 5. *)
Definition sched1 : Scheduler :=
  (Apply (newTorrentEvent torrent_T 5) sched0).1.

Definition obs_fresh : dispatcherObs :=
  {| Empty := true; LastConnRemoved := 0%Z;
     LastGoodPieceReceived := λ _, 0%Z; LastPieceSent := λ _, 0%Z |}.

Definition ctrl_T : torrentControl :=
  {| Dispatcher := dispatcher_T; Complete := false; Errors := [5];
     Observed := obs_fresh |}.

(** The tracker answers with this peer itself, an id that does not decode,
    and three other peers. *)
Definition peers_T : list PeerInfo :=
  [peerInfo hex_self; peerInfo "not a peer id"; peerInfo hex_P1;
   peerInfo hex_P2; peerInfo hex_P3].

(** With room for one connection per torrent, the response above starts
    exactly one handshake, to the first peer that is neither this peer nor
    undecodable; the loop stops at the second. *)
Example announceResponse_at_capacity :
  (Apply (announceResponseEvent hash_T peers_T) sched1).2
  = [EGo (initializeOutgoing peer_P1 (peerInfo hex_P1) hash_T dispatcher_T)]
  ∧ elements (pending (connState
                (Apply (announceResponseEvent hash_T peers_T) sched1).1))
    = [(peer_P1, hash_T)].
Proof. split; vm_compute; reflexivity. Qed.

(** The iteration theorem, on that response to [sched1]. *)
Lemma announceResponse_iterates_peers_witness :
  torrentControls sched1 !! hash_T = Some ctrl_T
  ∧ Complete ctrl_T = false
  ∧ ((∃ cs ts, announceIter (pctx_PeerID sched1) hash_T (clock_Now sched1)
                 (Dispatcher ctrl_T) peers_T (connState sched1) cs ts)
     ∧ ∀ cs ts,
         announceIter (pctx_PeerID sched1) hash_T (clock_Now sched1)
           (Dispatcher ctrl_T) peers_T (connState sched1) cs ts →
         Apply (announceResponseEvent hash_T peers_T) sched1
         = (set_connState cs
              (set_announceQueue
                 (aq_Ready (Dispatcher ctrl_T) (announceQueue sched1)) sched1),
            map EGo ts)).
Proof.
  split; [vm_compute; reflexivity|]. split; [reflexivity|].
  apply (announceResponse_iterates_peers hash_T peers_T sched1 ctrl_T);
    [vm_compute; reflexivity | reflexivity].
Defined.

(** [torrent_T] has completed; a second subscriber, the announce tick, time
    and a preemption tick follow. *)
Definition steps_after_completion : list step :=
  [Event (newTorrentEvent torrent_T 6);
   Event announceTickEvent;
   AdvanceClock 200%Z;
   Event (incomingHandshakeEvent
            {| pc_id := 1; pc_PeerID := peer_P2; pc_InfoHash := hash_T;
               pc_Name := "T"; pc_Bitfield := [] |});
   Event preemptionTickEvent;
   Event cleanupBlacklistEvent].


(** The completed torrent still has its control after those steps, and the
    announce response finds it. *)
Example announceResponse_after_completion :
  (Complete <$> torrentControls
     (run steps_after_completion
        (Apply (completedDispatcherEvent dispatcher_T) sched1).1).1 !! hash_T)
  = Some true
  ∧ (Apply (announceResponseEvent hash_T peers_T)
       (run steps_after_completion
          (Apply (completedDispatcherEvent dispatcher_T) sched1).1).1).2 = [].
Proof. split; vm_compute; reflexivity. Qed.



(** The same after an idle removal instead of a cancellation. *)
Example announceResponse_after_removal_opens :
  (Apply (announceResponseEvent hash_T [peerInfo hex_P1])
     (run [AdvanceClock 500%Z;
           Event preemptionTickEvent;
           Event (newTorrentEvent torrent_T 6)]
        (Apply (completedDispatcherEvent dispatcher_T) sched1).1).1).2
  = [EGo (initializeOutgoing peer_P1 (peerInfo hex_P1) hash_T
            {| d_id := 0; d_Torrent := torrent_T; d_CreatedAt := 10500%Z |})].
Proof. vm_compute; reflexivity. Qed.

(** An outbound connection to P1 for [torrent_T], created now. *)
Definition conn_P1 : Conn :=
  {| c_id := 1; c_PeerID := peer_P1; c_InfoHash := hash_T;
     c_CreatedAt := 10000%Z |}.

(** P1 is connected for a torrent that has no control. *)
Definition sched_orphan : Scheduler :=
  {| pctx_PeerID := peer_self;
     config := config0;
     clock_Now := 10000%Z;
     connState :=
       {| MaxGlobalEgress := 10; MaxConnsPerTorrent := 1;
          BlacklistCooldown := 30%Z;
          pending := ∅; active := [conn_P1]; blacklist := ∅ |};
     announceQueue := {| ready := []; announcing := [] |};
     torrentControls := ∅ |}.

(** The loop gets there: [torrent_T] is added, an announce response names
    P1, the handshake with P1 succeeds, and the torrent is cancelled before
    the connection has reported that it closed. *)
Example sched_orphan_reached :
  (run [Event (newTorrentEvent torrent_T 5);
        Event (announceResponseEvent hash_T [peerInfo hex_P1]);
        Event (outgoingConnEvent conn_P1 [] (Torrent_Stat torrent_T));
        Event (cancelTorrentEvent "T")] sched0).1
  = sched_orphan.
Proof. vm_compute; reflexivity. Qed.

(** C6 as stated fails here: the connection to P1 is active, was created at
    this very instant and so is neither idle nor expired, whatever a
    dispatcher would answer about it; its torrent has no control any more,
    and the preemption tick closes it. *)
Lemma preemptionTick_closes_orphan :
  ActiveConns (connState sched_orphan) = [conn_P1]
  ∧ torrentControls sched_orphan !! c_InfoHash conn_P1 = None
  ∧ closedBy (Apply preemptionTickEvent sched_orphan).2 conn_P1
  ∧ ∀ obs, ¬ overdue (config sched_orphan) (clock_Now sched_orphan) obs conn_P1.
Proof.
  split; [vm_compute; reflexivity|]. split; [vm_compute; reflexivity|]. split.
  - unfold closedBy. apply (bool_decide_unpack _). vm_compute. exact I.
  - intros obs.
    assert (clock_Now sched_orphan = 10000%Z) as -> by (vm_compute; reflexivity).
    assert (config sched_orphan = config0) as -> by (vm_compute; reflexivity).
    unfold overdue, Time_Sub, minDuration, maxDuration. simpl.
    lia.
Qed.

(** [torrent_T] completed, with no connection, and 500 ns went by: exactly
    [IdleSeederTTL]. *)
Definition sched_seeding : Scheduler :=
  (run [Event (newTorrentEvent torrent_T 5);
        Event (completedDispatcherEvent dispatcher_T);
        AdvanceClock 500%Z] sched0).1.

Definition ctrl_seeding : torrentControl :=
  {| Dispatcher := dispatcher_T; Complete := true; Errors := [5];
     Observed := obs_fresh |}.

(** The removal theorem, on the control of [torrent_T] in [sched_seeding]. *)
Lemma preemptionTick_removes_idle_seeder_witness :
  torrentControls sched_seeding !! hash_T = Some ctrl_seeding
  ∧ (torrentControls (Apply preemptionTickEvent sched_seeding).1 !! hash_T = None
     ↔ Complete ctrl_seeding = true
       ∧ Empty (Observed ctrl_seeding) = true
       ∧ (Time_Sub (clock_Now sched_seeding)
            (Z.max (d_CreatedAt (Dispatcher ctrl_seeding))
                   (LastConnRemoved (Observed ctrl_seeding)))
          >= IdleSeederTTL (config sched_seeding))%Z)
  ∧ (torrentControls (Apply preemptionTickEvent sched_seeding).1 !! hash_T = None
     ∨ torrentControls (Apply preemptionTickEvent sched_seeding).1 !! hash_T
       = Some ctrl_seeding).
Proof.
  split; [vm_compute; reflexivity|].
  apply (preemptionTick_removes_idle_seeder sched_seeding hash_T ctrl_seeding).
  vm_compute; reflexivity.
Defined.

(** At exactly [IdleSeederTTL] the control goes; one nanosecond earlier it
    stays. *)
Example preemptionTick_at_IdleSeederTTL :
  torrentControls (Apply preemptionTickEvent sched_seeding).1 !! hash_T = None
  ∧ torrentControls
      (run [Event (newTorrentEvent torrent_T 5);
            Event (completedDispatcherEvent dispatcher_T);
            AdvanceClock 499%Z;
            Event preemptionTickEvent] sched0).1 !! hash_T
    = Some ctrl_seeding.
Proof. split; vm_compute; reflexivity. Qed.

(** The cancellation theorem, for the name of [torrent_T] in [sched1]. *)
Lemma cancelTorrent_first_match_witness :
  controls_wf (torrentControls sched1)
  ∧ match list_find (namedAs "T") (range_controls (torrentControls sched1)) with
    | None =>
        (∀ h ctrl, torrentControls sched1 !! h = Some ctrl →
                   t_Name (d_Torrent (Dispatcher ctrl)) ≠ "T")
        ∧ Apply (cancelTorrentEvent "T") sched1 = (sched1, [])
    | Some (_, (h, ctrl)) =>
        torrentControls sched1 !! h = Some ctrl
        ∧ t_Name (d_Torrent (Dispatcher ctrl)) = "T"
        ∧ Apply (cancelTorrentEvent "T") sched1
          = (set_torrentControls (delete h (torrentControls sched1))
               (set_announceQueue
                  (aq_Eject (Dispatcher ctrl) (announceQueue sched1)) sched1),
             ETearDown (Dispatcher ctrl)
               :: map (λ errc, ESend errc (Some ErrTorrentCancelled))
                      (Errors ctrl)
               ++ [EProduce (TorrentCancelledEvent h (pctx_PeerID sched1))])
    end.
Proof.
  split; [apply (bool_decide_unpack _); vm_compute; exact I|].
  apply (cancelTorrent_first_match "T" sched1).
  apply (bool_decide_unpack _); vm_compute; exact I.
Defined.

(** Cancelling [torrent_T] by name, and cancelling a name no torrent has. *)
Example cancelTorrent_T :
  (Apply (cancelTorrentEvent "T") sched1).2
  = [ETearDown dispatcher_T; ESend 5 (Some ErrTorrentCancelled);
     EProduce (TorrentCancelledEvent hash_T peer_self)]
  ∧ torrentControls (Apply (cancelTorrentEvent "T") sched1).1 !! hash_T = None
  ∧ Apply (cancelTorrentEvent "U") sched1 = (sched1, []).
Proof. repeat split; vm_compute; reflexivity. Qed.

(** C2, evaluated where it fails: [torrent_T] is added with subscriber
    channel 5, completes, and is cancelled.  Channel 5 is sent [nil] and then
    [ErrTorrentCancelled]. *)
Lemma subscriber_signalled_twice :
  valuesSentOn 5
    (run [Event (newTorrentEvent torrent_T 5);
          Event (completedDispatcherEvent dispatcher_T);
          Event (cancelTorrentEvent "T")] sched0).2
  = [None; Some ErrTorrentCancelled].
Proof. vm_compute; reflexivity. Qed.

(** An incoming handshake from P1 for [torrent_T]. *)
Definition pc_P1 : PendingConn :=
  {| pc_id := 1; pc_PeerID := peer_P1; pc_InfoHash := hash_T;
     pc_Name := "T"; pc_Bitfield := [] |}.

(** C3, evaluated where it fails: the handshake is admitted, so (P1, T) is
    pending and the task is spawned; the archive does not know the torrent;
    the task closes the pending connection and sends no event, and (P1, T)
    stays pending. *)
Lemma incomingHandshake_lookup_failure_leaks :
  let s1 := (Apply (incomingHandshakeEvent pc_P1) sched0).1 in
  let acts :=
    run_establishIncoming
      (λ _, inr (errOther "torrent not found"))
      (λ _ _, inr (errOther "handshake failed")) pc_P1 in
  (Apply (incomingHandshakeEvent pc_P1) sched0).2 = [EGo (establishIncoming pc_P1)]
  ∧ elements (pending (connState s1)) = [(peer_P1, hash_T)]
  ∧ acts = [TClose pc_P1]
  ∧ sentEvents acts = []
  ∧ elements (pending (connState (run (map Event (sentEvents acts)) s1).1))
    = [(peer_P1, hash_T)].
Proof. repeat split; vm_compute; reflexivity. Qed.

(** The sibling path: when the handshake itself fails, the task sends
    [failedHandshakeEvent], and applying it empties pending and blacklists
    the pair. *)
Example incomingHandshake_establish_failure :
  let s1 := (Apply (incomingHandshakeEvent pc_P1) sched0).1 in
  let acts :=
    run_establishIncoming
      (λ _, inl (Torrent_Stat torrent_T))
      (λ _ _, inr (errOther "handshake failed")) pc_P1 in
  acts = [TClose pc_P1; TSend (failedHandshakeEvent peer_P1 hash_T)]
  ∧ elements (pending (connState (run (map Event (sentEvents acts)) s1).1)) = []
  ∧ blacklist (connState (run (map Event (sentEvents acts)) s1).1)
      !! (peer_P1, hash_T) = Some 10030%Z.
Proof. repeat split; vm_compute; reflexivity. Qed.

(** ** Further properties of the events *)

(** The parts of the scheduler an event may write: the connection state, the
    announce queue, the torrent controls. *)
Record footprint := {
  writesConnState : bool;
  writesAnnounceQueue : bool;
  writesTorrentControls : bool;
}.

Definition footprintOf (e : event) : footprint :=
  match e with
  | closedConnEvent _ | failedHandshakeEvent _ _ | incomingHandshakeEvent _
  | cleanupBlacklistEvent =>
      {| writesConnState := true; writesAnnounceQueue := false;
         writesTorrentControls := false |}
  | incomingConnEvent _ _ _ | outgoingConnEvent _ _ _ =>
      {| writesConnState := true; writesAnnounceQueue := true;
         writesTorrentControls := true |}
  | announceTickEvent | announceFailureEvent _ =>
      {| writesConnState := false; writesAnnounceQueue := true;
         writesTorrentControls := false |}
  | announceResponseEvent _ _ =>
      {| writesConnState := true; writesAnnounceQueue := true;
         writesTorrentControls := false |}
  | newTorrentEvent _ _ | completedDispatcherEvent _ | cancelTorrentEvent _ =>
      {| writesConnState := false; writesAnnounceQueue := true;
         writesTorrentControls := true |}
  | preemptionTickEvent =>
      {| writesConnState := false; writesAnnounceQueue := false;
         writesTorrentControls := true |}
  | emitStatsEvent | blacklistSnapshotEvent _ =>
      {| writesConnState := false; writesAnnounceQueue := false;
         writesTorrentControls := false |}
  end.

Section MoreEventProps.

Context `{!ConnStateOps, !AnnounceQueueOps, !Runtime, !SchedulerHelpers}.

(** The steps of a run at which the scheduler hands over to a helper of
    scheduler.go all keep [controls_wf]. *)
Fixpoint helpersWf (sts : list step) (s : Scheduler) : Prop :=
  match sts with
  | [] => True
  | st :: rest => helperWf st s ∧ helpersWf rest (do_step st s).1
  end.



(** X14. An announce response that arrives after its torrent was cancelled
    is dropped: it changes nothing and has no effect. *)
Theorem cancel_then_announceResponse_dropped (name : string) (s : Scheduler)
    (i : nat) (h : InfoHash) (ctrl : torrentControl) (peers : list PeerInfo) :
  controls_wf (torrentControls s) →
  list_find (namedAs name) (range_controls (torrentControls s))
  = Some (i, (h, ctrl)) →
  Apply (announceResponseEvent h peers) (Apply (cancelTorrentEvent name) s).1
  = ((Apply (cancelTorrentEvent name) s).1, []).
Proof.
  intros Hwf Hfind. simpl. unfold Apply_cancelTorrent.
  rewrite cancelScan_find, Hfind.
  apply list_find_Some in Hfind as (Hi & _ & _).
  assert (torrentControls s !! h = Some ctrl) as Hctrl.
  { apply elem_of_map_to_list. rewrite <- range_controls_perm.
    by eapply list_elem_of_lookup_2. }
  unfold cancelControl, Apply_announceResponse. simpl.
  by rewrite (Hwf h ctrl Hctrl), lookup_delete_eq.
Qed.

Lemma valuesSentOn_app (ch : chan) (effs1 effs2 : list effect) :
  valuesSentOn ch (effs1 ++ effs2)
  = valuesSentOn ch effs1 ++ valuesSentOn ch effs2.
Proof. apply omap_app. Qed.

Lemma valuesSentOn_others (ch : chan) (v : option error) (errs : list chan) :
  ch ∉ errs → valuesSentOn ch (map (λ errc, ESend errc v) errs) = [].
Proof.
  induction errs as [|errc errs IH]; [done|].
  rewrite not_elem_of_cons. intros [Hne Hnot]. simpl.
  unfold valuesSentOn in *. simpl.
  destruct (decide (errc = ch)); [congruence|]. by apply IH.
Qed.

(** X15. Subscribers of a torrent that is downloading: a [newTorrentEvent]
    sends nothing and registers the channel; the [completedDispatcherEvent]
    that follows sends it [nil], once; and from then on a [newTorrentEvent]
    for the torrent is answered with [nil] at once and leaves the scheduler
    as it is. *)
Theorem subscriber_resolved_at_completion (torrent : Torrent) (errc : chan)
    (d : dispatcher) (s : Scheduler) (ctrl : torrentControl) :
  torrentControls s !! t_InfoHash torrent = Some ctrl →
  Complete ctrl = false →
  errc ∉ Errors ctrl →
  t_InfoHash (d_Torrent d) = t_InfoHash torrent →
  (Apply (newTorrentEvent torrent errc) s).2 = []
  ∧ valuesSentOn errc
      (Apply (completedDispatcherEvent d)
         (Apply (newTorrentEvent torrent errc) s).1).2
    = [None]
  ∧ ∀ errc',
      Apply (newTorrentEvent torrent errc')
        (Apply (completedDispatcherEvent d)
           (Apply (newTorrentEvent torrent errc) s).1).1
      = ((Apply (completedDispatcherEvent d)
            (Apply (newTorrentEvent torrent errc) s).1).1,
         [ESend errc' None]).
Proof.
  intros Hctrl Hincomplete Hnew Hd.
  set (registered := set_Errors (Errors ctrl ++ [errc]) ctrl).
  assert (Apply (newTorrentEvent torrent errc) s
          = (set_torrentControls
               (<[t_InfoHash torrent := registered]> (torrentControls s)) s,
             [])) as ->.
  { simpl. unfold Apply_newTorrent. by rewrite Hctrl, Hincomplete. }
  cbn [fst snd]. split; [done|].
  erewrite completedDispatcher_signals
    by (rewrite Hd; apply lookup_insert_eq).
  cbn [fst snd]. rewrite Hd. split.
  - subst registered. simpl. rewrite map_app, !valuesSentOn_app.
    rewrite valuesSentOn_others by done.
    unfold valuesSentOn. simpl. by rewrite decide_True.
  - intros errc'. simpl. unfold Apply_newTorrent. simpl.
    by rewrite lookup_insert_eq.
Qed.

(** X16. Each event writes only its own part of the scheduler: outside the
    footprint listed for it in [footprintOf], the connection state, the
    announce queue and the torrent controls are after [Apply] what they were
    before.  The stats and blacklist-snapshot events write nothing. *)
Theorem Apply_footprint (e : event) (s : Scheduler) :
  (if writesConnState (footprintOf e) then True
   else connState (Apply e s).1 = connState s)
  ∧ (if writesAnnounceQueue (footprintOf e) then True
     else announceQueue (Apply e s).1 = announceQueue s)
  ∧ (if writesTorrentControls (footprintOf e) then True
     else torrentControls (Apply e s).1 = torrentControls s).
Proof.
  destruct e; simpl; repeat split; try done.
  - unfold Apply_closedConn. by destruct (Blacklist _ _ _ _).
  - unfold Apply_closedConn. by destruct (Blacklist _ _ _ _).
  - unfold Apply_failedHandshake. by destruct (Blacklist _ _ _ _).
  - unfold Apply_failedHandshake. by destruct (Blacklist _ _ _ _).
  - unfold Apply_incomingHandshake. by destruct (AddPending _ _ _ _) as [? []].
  - unfold Apply_incomingHandshake. by destruct (AddPending _ _ _ _) as [? []].
  - unfold Apply_announceTick. by destruct (aq_Next _) as [? []].
  - unfold Apply_announceTick. by destruct (aq_Next _) as [? []].
  - unfold Apply_announceResponse.
    destruct (torrentControls s !! infoHash) as [ctrl|]; [|done].
    destruct (Complete ctrl); [done|]. simpl.
    by destruct (connectPeers _ _ _ _ _ _ _ _).
  - unfold Apply_newTorrent.
    destruct (torrentControls s !! t_InfoHash torrent) as [ctrl|].
    + by destruct (Complete ctrl).
    + unfold initTorrentControl. destruct (newDispatcher torrent s) as [d obs].
      simpl. by destruct (initComplete torrent).
  - unfold Apply_completedDispatcher. simpl.
    by destruct (torrentControls s !! t_InfoHash (d_Torrent d)).
  - unfold Apply_cancelTorrent. rewrite cancelScan_find.
    by destruct (list_find _ _) as [[? [? ?]]|].
Qed.

(** X17. A second preemption tick at the same instant, with the dispatchers
    answering as before, removes no further control. *)
Theorem preemptionTick_twice (s : Scheduler) :
  torrentControls
    (Apply preemptionTickEvent (Apply preemptionTickEvent s).1).1
  = torrentControls (Apply preemptionTickEvent s).1.
Proof.
  simpl. apply map_eq. intros h. rewrite !removeIdleSeeders_lookup.
  destruct (torrentControls s !! h) as [ctrl|]; [|done].
  destruct (idleSeeder (config s) (clock_Now s) ctrl) eqn:Hidle; [done|].
  by rewrite Hidle.
Qed.

(** X18. The task of an outbound handshake always reports back with
    exactly one event, decided by [Initialize], which it calls once, for the
    peer, with the address "IP:Port" of the peer and with the torrent info of
    the dispatcher's torrent.  When [Initialize] fails the task sends
    [failedHandshakeEvent] for the peer and infohash that were added to
    pending, and applying that event calls [DeletePending] and then
    [Blacklist] for that very pair; when [Initialize] succeeds the task sends
    [outgoingConnEvent] with the connection and bitfield [Initialize]
    returned and that torrent info.  It closes nothing. *)
Theorem initializeOutgoing_sends_one_event
    (Initialize : PeerID → string → TorrentInfo → (Conn * list bool) + error)
    (pid : PeerID) (p : PeerInfo) (infoHash : InfoHash) (d : dispatcher) :
  match Initialize pid (pi_IP p +:+ ":" +:+ pretty (pi_Port p))
          (Torrent_Stat (d_Torrent d)) with
  | inr _ =>
      run_initializeOutgoing Initialize pid p infoHash d
      = [TSend (failedHandshakeEvent pid infoHash)]
      ∧ ∀ s : Scheduler,
          run (map Event
                 (sentEvents (run_initializeOutgoing Initialize pid p infoHash d)))
              s
          = (set_connState
               (Blacklist pid infoHash (clock_Now s)
                  (DeletePending pid infoHash (connState s))).1 s,
             [])
  | inl (c, bitfield) =>
      run_initializeOutgoing Initialize pid p infoHash d
      = [TSend (outgoingConnEvent c bitfield (Torrent_Stat (d_Torrent d)))]
  end.
Proof.
  unfold run_initializeOutgoing.
  destruct (Initialize pid _ _) as [[c bitfield]|err]; [done|].
  split; [done|]. intros s. simpl. unfold Apply_failedHandshake.
  by destruct (Blacklist _ _ _ _).
Qed.

(** X19. Along a run of the loop every control stays stored under the
    infohash of its dispatcher's torrent, as long as the helpers of
    scheduler.go do their part where the run calls them (see [helperWf]). *)
Theorem run_keeps_controls_wf (sts : list step) (s : Scheduler) :
  helpersWf sts s →
  controls_wf (torrentControls s) →
  controls_wf (torrentControls (run sts s).1).
Proof.
  revert s. induction sts as [|st sts IH]; intros s Hhelpers Hwf; [done|].
  simpl in *. destruct Hhelpers as [Hst Hrest].
  pose proof (do_step_controls_wf st s Hst Hwf) as Hnext.
  destruct (do_step st s) as [s1 effs1]. simpl in *.
  specialize (IH s1 Hrest Hnext).
  by destruct (run sts s1) as [s2 effs2].
Qed.


End MoreEventProps.

(** *** The theorems above on the small scheduler *)

Lemma cancel_then_announceResponse_dropped_applied :
  controls_wf (torrentControls sched1)
  ∧ list_find (namedAs "T") (range_controls (torrentControls sched1))
    = Some (0, (hash_T, ctrl_T))
  ∧ Apply (announceResponseEvent hash_T peers_T)
      (Apply (cancelTorrentEvent "T") sched1).1
    = ((Apply (cancelTorrentEvent "T") sched1).1, []).
Proof.
  split; [apply (bool_decide_unpack _); vm_compute; exact I|].
  split; [vm_compute; reflexivity|].
  apply (cancel_then_announceResponse_dropped "T" sched1 0 hash_T ctrl_T
           peers_T);
    [apply (bool_decide_unpack _); vm_compute; exact I
    | vm_compute; reflexivity].
Defined.

Lemma subscriber_resolved_at_completion_applied :
  torrentControls sched1 !! t_InfoHash torrent_T = Some ctrl_T
  ∧ Complete ctrl_T = false
  ∧ (6 ∉ Errors ctrl_T)
  ∧ t_InfoHash (d_Torrent dispatcher_T) = t_InfoHash torrent_T
  ∧ (Apply (newTorrentEvent torrent_T 6) sched1).2 = []
  ∧ valuesSentOn 6
      (Apply (completedDispatcherEvent dispatcher_T)
         (Apply (newTorrentEvent torrent_T 6) sched1).1).2
    = [None]
  ∧ ∀ errc',
      Apply (newTorrentEvent torrent_T errc')
        (Apply (completedDispatcherEvent dispatcher_T)
           (Apply (newTorrentEvent torrent_T 6) sched1).1).1
      = ((Apply (completedDispatcherEvent dispatcher_T)
            (Apply (newTorrentEvent torrent_T 6) sched1).1).1,
         [ESend errc' None]).
Proof.
  assert (6 ∉ Errors ctrl_T) as Hnew.
  { simpl. rewrite list_elem_of_singleton. discriminate. }
  split; [vm_compute; reflexivity|]. split; [reflexivity|].
  split; [exact Hnew|]. split; [reflexivity|].
  apply (subscriber_resolved_at_completion torrent_T 6 dispatcher_T sched1
           ctrl_T);
    [vm_compute; reflexivity | reflexivity | exact Hnew | reflexivity].
Defined.

(** A torrent is added, announced, completed, left idle, removed, added
    again and cancelled. *)
Definition steps_of_a_torrent : list step :=
  [Event (newTorrentEvent torrent_T 5);
   Event announceTickEvent;
   Event (completedDispatcherEvent dispatcher_T);
   AdvanceClock 600%Z;
   Event preemptionTickEvent;
   Event (newTorrentEvent torrent_T 6);
   Event (cancelTorrentEvent "T")].

Lemma run_keeps_controls_wf_applied :
  helpersWf steps_of_a_torrent sched0
  ∧ controls_wf (torrentControls sched0)
  ∧ controls_wf (torrentControls (run steps_of_a_torrent sched0).1).
Proof.
  assert (helpersWf steps_of_a_torrent sched0) as Hhelpers.
  { vm_compute. repeat split. }
  assert (controls_wf (torrentControls sched0)) as Hwf.
  { apply (bool_decide_unpack _). vm_compute. exact I. }
  split; [exact Hhelpers|]. split; [exact Hwf|].
  exact (run_keeps_controls_wf steps_of_a_torrent sched0 Hhelpers Hwf).
Defined.

End Sched.
